(** * Offline queue, sync engine, retry helper and encryption service

    A shallow embedding of the TypeScript sources

      - [src/services/OfflineStorage.ts]   (class [OfflineStorage])
      - [MessageQueue]                     (class [MessageQueue], singleton)
      - [src/utils/ErrorHandling.ts]       ([withTimeout], [withRetry])
      - [src/services/Encryption.ts]       (class [EncryptionService])

    Every [async] function becomes a state transformer over an explicit
    world (durable storage, the ledger's log of submissions, the fault
    scripts of the environment) that returns how its promise settles. *)

From Stdlib Require Import List String ZArith Lia Bool Arith PeanoNat Sorted.
Import ListNotations.

Local Open Scope string_scope.
Local Open Scope list_scope.

(** ** How a promise settles *)

Inductive Error : Type :=
| StorageError                    (* AsyncStorage rejects a read or a write *)
| SyntaxError                     (* JSON.parse on a string that is not JSON *)
| SubmissionError                 (* the ledger rejects or is unreachable *)
| ReferenceError (name : string)  (* an identifier that was never declared *)
| InvalidKeyError                 (* the elliptic library refuses a key *)
| OperationTimeoutError (operationType : string) (timeoutMs : Z)
| Undefined                       (* [throw undefined] *)
| OtherError (message : string).

(** [Killed] is the process dying at an [await]: no [catch] sees it and
    nothing after it runs. *)
Inductive Outcome (A : Type) : Type :=
| Resolved (a : A)
| Rejected (e : Error)
| Killed.

Arguments Resolved {A} a.
Arguments Rejected {A} e.
Arguments Killed {A}.

Definition Async (S A : Type) : Type := S -> Outcome A * S.

Definition ret {S A} (a : A) : Async S A := fun s => (Resolved a, s).

Definition throw {S A} (e : Error) : Async S A := fun s => (Rejected e, s).

Definition bind {S A B} (c : Async S A) (k : A -> Async S B) : Async S B :=
  fun s =>
    match c s with
    | (Resolved a, s') => k a s'
    | (Rejected e, s') => (Rejected e, s')
    | (Killed, s') => (Killed, s')
    end.

(** [try { c } catch (error) { h error }] *)
Definition try_catch {S A} (c : Async S A) (h : Error -> Async S A) : Async S A :=
  fun s =>
    match c s with
    | (Rejected e, s') => h e s'
    | r => r
    end.

Declare Scope async_scope.
Delimit Scope async_scope with async.
Notation "x <- c1 ;; c2" := (bind c1 (fun x => c2))
  (at level 61, c1 at next level, right associativity) : async_scope.
Notation "c1 ;; c2" := (bind c1 (fun _ => c2))
  (at level 61, right associativity) : async_scope.
Local Open Scope async_scope.

(** What the environment does to one awaited operation. *)
Inductive Fate : Type := Fine | Fails | Dies.

(** A script lists the fates of the coming operations, the next one first;
    past its end every operation is [Fine]. *)
Definition next_fate (script : list Fate) : Fate * list Fate :=
  match script with
  | [] => (Fine, [])
  | f :: rest => (f, rest)
  end.

Definition is_fine (f : Fate) : bool :=
  match f with Fine => true | _ => false end.

Definition is_dies (f : Fate) : bool :=
  match f with Dies => true | _ => false end.

(** No operation of the script kills the process. *)
Definition survives (script : list Fate) : bool :=
  forallb (fun f => negb (is_dies f)) script.

(** Every operation of the script succeeds. *)
Definition calm (script : list Fate) : bool := forallb is_fine script.

(** The fates of the next [n] operations. *)
Fixpoint take_fates (n : nat) (script : list Fate) : list Fate :=
  match n with
  | O => []
  | S n' => fst (next_fate script) :: take_fates n' (snd (next_fate script))
  end.

(** ** Messages *)

(** [status] of a message on the send path. *)
Inductive Status : Type := pending | submitting | confirmed | failed.

Definition Status_eqb (a b : Status) : bool :=
  match a, b with
  | pending, pending | submitting, submitting
  | confirmed, confirmed | failed, failed => true
  | _, _ => false
  end.

(** The [Message] objects of the send path: an id made by the caller, the
    two addresses, the encrypted content, the creation time in
    milliseconds and the status. *)
Record Message : Type := mkMessage {
  id : string;
  sender : string;
  recipient : string;
  content : string;
  timestamp : Z;
  status : Status
}.

Definition Message_eqb (a b : Message) : bool :=
  String.eqb (id a) (id b) && String.eqb (sender a) (sender b)
  && String.eqb (recipient a) (recipient b)
  && String.eqb (content a) (content b) && Z.eqb (timestamp a) (timestamp b)
  && Status_eqb (status a) (status b).

(** The timestamps never decrease along the list. *)
Fixpoint ascending (l : list Message) : bool :=
  match l with
  | a :: (b :: _) as rest => (timestamp a <=? timestamp b)%Z && ascending rest
  | _ => true
  end.

(** The entries of [l] whose id is none of [ids]. *)
Definition without_ids (ids : list string) (l : list Message) : list Message :=
  filter (fun m => negb (existsb (String.eqb (id m)) ids)) l.

(** One call of the ledger's send capability and how it ended. *)
Record Submission : Type := mkSubmission {
  sub_msg : Message;
  sub_ok : bool
}.

(** The messages the ledger took, oldest first. *)
Definition accepted (log : list Submission) : list Message :=
  map sub_msg (filter sub_ok log).

(** How many times the ledger took [m]. *)
Definition times_accepted (m : Message) (log : list Submission) : nat :=
  List.length (filter (Message_eqb m) (accepted log)).

(** ** OfflineStorage *)

Module OfflineStorage.

(** What AsyncStorage holds under ['pendingMessages']: nothing ([null]),
    the empty string, a string [JSON.parse] rejects, or the
    [JSON.stringify] of a message array ([JSON.parse] gives the array
    back). The class itself writes only the last kind. A text that is
    JSON but no message array ([null], a number, an object), which some
    other writer could leave under the key, is not an [Item]:
    [OfflineStorageJson] below has the read over any text. *)
Inductive Item : Type :=
| Absent
| Blank
| Corrupt
| Stored (l : list Message).

Record World : Type := mkWorld {
  pendingMessages : Item;          (* AsyncStorage, PENDING_MESSAGES_KEY *)
  lastSync : option Z;             (* AsyncStorage, LAST_SYNC_KEY *)
  ledger : list Submission;        (* every submission the contract saw *)
  disk_script : list Fate;         (* fates of the coming AsyncStorage calls *)
  ledger_script : list Fate;       (* fates of the coming contract calls *)
  online : bool;                   (* NetworkService.isOnline() *)
  now : Z                          (* Date.now() *)
}.

Definition set_pendingMessages (i : Item) (w : World) : World :=
  mkWorld i (lastSync w) (ledger w) (disk_script w) (ledger_script w)
          (online w) (now w).

Definition set_lastSync (t : Z) (w : World) : World :=
  mkWorld (pendingMessages w) (Some t) (ledger w) (disk_script w)
          (ledger_script w) (online w) (now w).

Definition set_disk_script (s : list Fate) (w : World) : World :=
  mkWorld (pendingMessages w) (lastSync w) (ledger w) s (ledger_script w)
          (online w) (now w).

Definition set_ledger_script (s : list Fate) (w : World) : World :=
  mkWorld (pendingMessages w) (lastSync w) (ledger w) (disk_script w) s
          (online w) (now w).

Definition log_submission (m : Message) (ok : bool) (w : World) : World :=
  mkWorld (pendingMessages w) (lastSync w)
          (ledger w ++ [mkSubmission m ok])
          (disk_script w) (ledger_script w) (online w) (now w).

(** One awaited AsyncStorage call: [effect] is applied when it succeeds. *)
Definition disk_op {A} (value : World -> A) (effect : World -> World)
  : Async World A :=
  fun w =>
    let (f, rest) := next_fate (disk_script w) in
    let w' := set_disk_script rest w in
    match f with
    | Fine => (Resolved (value w'), effect w')
    | Fails => (Rejected StorageError, w')
    | Dies => (Killed, w')
    end.

(** [AsyncStorage.getItem(OfflineStorage.PENDING_MESSAGES_KEY)] *)
Definition getItem_PENDING_MESSAGES_KEY : Async World Item :=
  disk_op pendingMessages (fun w => w).

(** [AsyncStorage.setItem(OfflineStorage.PENDING_MESSAGES_KEY,
    JSON.stringify(l))] *)
Definition setItem_PENDING_MESSAGES_KEY (l : list Message) : Async World unit :=
  disk_op (fun _ => tt) (set_pendingMessages (Stored l)).

(** [AsyncStorage.setItem(OfflineStorage.LAST_SYNC_KEY, t.toString())] *)
Definition setItem_LAST_SYNC_KEY (t : Z) : Async World unit :=
  disk_op (fun _ => tt) (set_lastSync t).

(** [messages ? JSON.parse(messages) : []] *)
Definition parse_or_empty (messages : Item) : Async World (list Message) :=
  match messages with
  | Absent => ret []
  | Blank => ret []
  | Corrupt => throw SyntaxError
  | Stored l => ret l
  end.

Definition getPendingMessages : Async World (list Message) :=
  try_catch
    (messages <- getItem_PENDING_MESSAGES_KEY ;;
     parse_or_empty messages)
    (fun _error => ret []).

Definition storeMessage (message : Message) : Async World unit :=
  try_catch
    (pendingMessages <- getPendingMessages ;;
     setItem_PENDING_MESSAGES_KEY (pendingMessages ++ [message]))
    (fun error => throw error).

Definition removePendingMessage (messageId : string) : Async World unit :=
  messages <- getPendingMessages ;;
  let filtered := filter (fun m => negb (String.eqb (id m) messageId)) messages in
  setItem_PENDING_MESSAGES_KEY filtered.

(** Modelled from the spec: the body of [sendMessageToContract] is a
    placeholder in the source; the call is the Ledger's
    [submit(recipient, ciphertext) -> confirmation | throws]. Every call
    is logged with its outcome. *)
Definition sendMessageToContract (message : Message) : Async World unit :=
  fun w =>
    let (f, rest) := next_fate (ledger_script w) in
    let w' := set_ledger_script rest w in
    match f with
    | Fine => (Resolved tt, log_submission message true w')
    | Fails => (Rejected SubmissionError, log_submission message false w')
    | Dies => (Killed, w')
    end.

(** One turn of the loop of [syncMessages]: its [try] and [catch]. *)
Definition turn (message : Message) : Async World unit :=
  try_catch
    (sendMessageToContract message ;;
     removePendingMessage (id message))
    (fun _error => ret tt).

(** The [for (const message of pendingMessages)] loop of [syncMessages]. *)
Fixpoint syncLoop (pendingMessages : list Message) : Async World unit :=
  match pendingMessages with
  | [] => ret tt
  | message :: rest => turn message ;; syncLoop rest
  end.

Definition syncMessages : Async World unit :=
  fun w =>
    if negb (online w) then (Resolved tt, w)
    else
      (pendingMessages <- getPendingMessages ;;
       syncLoop pendingMessages ;;
       setItem_LAST_SYNC_KEY (now w)) w.

(** What a fresh process finds in durable storage when its read succeeds. *)
Definition durable_pending (w : World) : list Message :=
  match pendingMessages w with
  | Stored l => l
  | _ => []
  end.

(** Messages and worlds for concrete runs. *)
Definition a_message (i : string) (t : Z) : Message :=
  mkMessage i "0xA11CE" "0xB0B" "ciphertext" t pending.

(** A world with calm storage, a calm ledger and a connection. *)
Definition quiet (item : Item) : World :=
  mkWorld item None [] [] [] true 1700000000000%Z.

(** [for (m of ms) await storeMessage(m)] *)
Fixpoint storeMessages (ms : list Message) : Async World unit :=
  match ms with
  | [] => ret tt
  | m :: rest => storeMessage m ;; storeMessages rest
  end.

End OfflineStorage.

(** ** MessageQueue *)

Module MessageQueue.

(** [interface QueuedMessage { id; recipient; content; timestamp }]: the
    objects that reach [addToQueue] are the [Message]s built by the send
    path, which carry these fields, the sender and the status. *)
Definition QueuedMessage : Type := Message.

Record World : Type := mkWorld {
  queue : list QueuedMessage;                 (* this.queue *)
  isProcessing : bool;                        (* this.isProcessing *)
  messageQueue : option (list QueuedMessage); (* AsyncStorage, 'messageQueue' *)
  ledger : list Submission;                   (* every submission sent *)
  isConnected : bool;                         (* NetInfo.fetch().isConnected *)
  disk_faults : list bool;   (* does the next AsyncStorage.setItem reject? *)
  send_faults : list bool    (* does the next sendMessage throw? *)
}.

Definition set_queue (q : list QueuedMessage) (w : World) : World :=
  mkWorld q (isProcessing w) (messageQueue w) (ledger w) (isConnected w)
          (disk_faults w) (send_faults w).

Definition set_isProcessing (b : bool) (w : World) : World :=
  mkWorld (queue w) b (messageQueue w) (ledger w) (isConnected w)
          (disk_faults w) (send_faults w).

Definition set_messageQueue (q : list QueuedMessage) (w : World) : World :=
  mkWorld (queue w) (isProcessing w) (Some q) (ledger w) (isConnected w)
          (disk_faults w) (send_faults w).

Definition set_disk_faults (s : list bool) (w : World) : World :=
  mkWorld (queue w) (isProcessing w) (messageQueue w) (ledger w)
          (isConnected w) s (send_faults w).

Definition set_send_faults (s : list bool) (w : World) : World :=
  mkWorld (queue w) (isProcessing w) (messageQueue w) (ledger w)
          (isConnected w) (disk_faults w) s.

Definition log_submission (m : Message) (ok : bool) (w : World) : World :=
  mkWorld (queue w) (isProcessing w) (messageQueue w)
          (ledger w ++ [mkSubmission m ok]) (isConnected w)
          (disk_faults w) (send_faults w).

(** The next entry of a fault script; past its end nothing fails. *)
Definition next_fault (script : list bool) : bool * list bool :=
  match script with
  | [] => (false, [])
  | b :: rest => (b, rest)
  end.

(** [AsyncStorage.setItem('messageQueue', JSON.stringify(snapshot))] *)
Definition setItem_messageQueue (snapshot : list QueuedMessage)
  : Async World unit :=
  fun w =>
    let (fault, rest) := next_fault (disk_faults w) in
    let w' := set_disk_faults rest w in
    if fault then (Rejected StorageError, w')
    else (Resolved tt, set_messageQueue snapshot w').

(** The [await AsyncStorage.setItem] of [saveQueue] once its string has
    been built: a rejection is caught and logged. *)
Definition saveQueue_of (snapshot : list QueuedMessage) : Async World unit :=
  try_catch (setItem_messageQueue snapshot) (fun _error => ret tt).

Definition saveQueue : Async World unit :=
  fun w => saveQueue_of (queue w) w.

(** Modelled from the spec: the body of [sendMessage] is a placeholder in
    the source; the call is the Ledger's
    [submit(recipient, ciphertext) -> confirmation | throws]. Every call
    is logged with its outcome. *)
Definition sendMessage (message : QueuedMessage) : Async World unit :=
  fun w =>
    let (fault, rest) := next_fault (send_faults w) in
    let w' := set_send_faults rest w in
    if fault then (Rejected SubmissionError, log_submission message false w')
    else (Resolved tt, log_submission message true w').

(** [this.queue.shift()] *)
Definition shift : Async World unit :=
  fun w => (Resolved tt, set_queue (tl (queue w)) w).

(** [this.queue.push(message)] *)
Definition push (message : QueuedMessage) : Async World unit :=
  fun w => (Resolved tt, set_queue (queue w ++ [message]) w).

Definition assign_isProcessing (b : bool) : Async World unit :=
  fun w => (Resolved tt, set_isProcessing b w).

(** The [while (this.queue.length > 0)] loop when nothing else runs
    between its awaits. Each turn shifts one entry or breaks, so the
    length of the queue at entry bounds the number of turns. *)
Fixpoint processLoop (turns : nat) : Async World unit :=
  fun w =>
    match turns, queue w with
    | S turns', message :: _ =>
        (again <- try_catch
                    (sendMessage message ;; shift ;; saveQueue ;; ret true)
                    (fun _error => ret false) ;;
         if again : bool then processLoop turns' else ret tt) w
    | _, _ => (Resolved tt, w)
    end.

(** [processQueue] run to completion with nothing interleaved. *)
Definition processQueue : Async World unit :=
  fun w =>
    if isProcessing w || (List.length (queue w) =? 0)%nat then (Resolved tt, w)
    else if negb (isConnected w) then (Resolved tt, w)
    else
      (assign_isProcessing true ;;
       processLoop (List.length (queue w)) ;;
       assign_isProcessing false) w.

(** [addToQueue]: the pass it triggers is not awaited; here it runs to
    completion before anything else happens, and how it settles is not
    observed by the caller. *)
Definition addToQueue (message : QueuedMessage) : Async World unit :=
  push message ;;
  saveQueue ;;
  (fun w => (Resolved tt, snd (processQueue w))).

(** *** The same code cut at its awaits

    Between two awaits JavaScript runs a function without interruption;
    at an await any other pending call may run. A [Task] is a call
    suspended at one of its awaits. *)
Inductive Task : Type :=
| AddAtSave (snapshot : list QueuedMessage) (* addToQueue: await this.saveQueue() *)
| PassAtFetch                               (* processQueue: await NetInfo.fetch() *)
| PassAtSend (message : QueuedMessage)      (* await this.sendMessage(message) *)
| PassAtSave (snapshot : list QueuedMessage) (* await this.saveQueue() *)
| Done.

(** A call of [processQueue], up to its first await. *)
Definition call_processQueue (w : World) : Task * World :=
  if isProcessing w || (List.length (queue w) =? 0)%nat then (Done, w)
  else (PassAtFetch, w).

(** A call of [addToQueue], up to its first await. *)
Definition call_addToQueue (message : QueuedMessage) (w : World)
  : Task * World :=
  let w' := snd (push message w) in
  (AddAtSave (queue w'), w').

(** The test of the [while] loop and what follows it up to the next
    await. *)
Definition loop_head (w : World) : Task * World :=
  match queue w with
  | [] => (Done, set_isProcessing false w)
  | message :: _ => (PassAtSend message, w)
  end.

(** The awaited promise of a task settles and the task runs on to its
    next await. *)
Definition resume (t : Task) (w : World) : Task * World :=
  match t with
  | AddAtSave snapshot => call_processQueue (snd (saveQueue_of snapshot w))
  | PassAtFetch =>
      if negb (isConnected w) then (Done, w)
      else loop_head (set_isProcessing true w)
  | PassAtSend message =>
      match sendMessage message w with
      | (Resolved _, w1) =>
          let w2 := snd (shift w1) in
          (PassAtSave (queue w2), w2)
      | (_, w1) => (Done, set_isProcessing false w1)
      end
  | PassAtSave snapshot => loop_head (snd (saveQueue_of snapshot w))
  | Done => (Done, w)
  end.

(** One task resumed again and again, nothing else in between. *)
Fixpoint run_alone (fuel : nat) (t : Task) (w : World) : Task * World :=
  match fuel with
  | O => (t, w)
  | S fuel' =>
      match t with
      | Done => (Done, w)
      | _ => let (t', w') := resume t w in run_alone fuel' t' w'
      end
  end.

(** The event loop: the world and the suspended calls. *)
Record System : Type := mkSystem {
  world : World;
  tasks : list Task
}.

Inductive Event : Type :=
| Call_addToQueue (message : QueuedMessage) (* a caller invokes addToQueue *)
| Settle (i : nat).                         (* the promise task [i] awaits settles *)

Fixpoint replace_nth {A} (i : nat) (x : A) (l : list A) : list A :=
  match l, i with
  | [], _ => []
  | _ :: l', O => x :: l'
  | y :: l', S i' => y :: replace_nth i' x l'
  end.

Definition react (s : System) (e : Event) : System :=
  match e with
  | Call_addToQueue message =>
      let (t, w) := call_addToQueue message (world s) in
      mkSystem w (tasks s ++ [t])
  | Settle i =>
      match nth_error (tasks s) i with
      | Some t =>
          let (t', w) := resume t (world s) in
          mkSystem w (replace_nth i t' (tasks s))
      | None => s
      end
  end.

Definition play (schedule : list Event) (s : System) : System :=
  fold_left react schedule s.

(** A task that is inside the [while] loop of a sync pass. *)
Definition in_pass (t : Task) : bool :=
  match t with
  | PassAtSend _ | PassAtSave _ => true
  | _ => false
  end.

(** The number of sync passes that are inside their loop. *)
Definition passes_running (s : System) : nat :=
  List.length (filter in_pass (tasks s)).

(** An idle, connected queue with nothing stored and nothing sent. *)
Definition idle (q : list QueuedMessage) : World :=
  mkWorld q false None [] true [] [].

(** Two calls of [addToQueue] whose passes both get through the guard of
    [processQueue] before either has raised the flag. *)
Definition racing_schedule (m1 m2 : QueuedMessage) : list Event :=
  [ Call_addToQueue m1;  (* task 0: push m1, awaits its saveQueue *)
    Settle 0;            (* task 0 calls processQueue: guard passed, awaits fetch *)
    Call_addToQueue m2;  (* task 1: push m2, awaits its saveQueue *)
    Settle 1;            (* task 1 calls processQueue: guard passed, awaits fetch *)
    Settle 0;            (* task 0 raises the flag, awaits sendMessage(m1) *)
    Settle 1;            (* task 1 raises the flag, awaits sendMessage(m1) *)
    Settle 0;            (* task 0: acknowledged, shifts m1, awaits saveQueue *)
    Settle 1;            (* task 1: acknowledged, shifts m2, awaits saveQueue *)
    Settle 0;            (* task 0: queue empty, lowers the flag *)
    Settle 1 ].          (* task 1: queue empty, lowers the flag *)

(** An acknowledged submission of [m]. *)
Definition ack (m : Message) : Submission := mkSubmission m true.



(** How many entries from the head of [q] the ledger acknowledges before
    the first submission that throws, by the fault script: every entry
    when none throws. *)
Fixpoint acknowledged_prefix (faults : list bool) (q : list QueuedMessage)
  : nat :=
  match q with
  | [] => O
  | _ :: q' =>
      if fst (next_fault faults) then O
      else S (acknowledged_prefix (snd (next_fault faults)) q')
  end.


End MessageQueue.

(** ** ErrorHandling: withTimeout and withRetry *)

Module ErrorHandling.

(** What the timers and the callbacks of one [withRetry] call leave
    behind. *)
Record World : Type := mkWorld {
  calls : nat;             (* how often [operation] has been invoked *)
  slept : list Z;          (* the delays handed to [setTimeout], oldest first *)
  reported : list Error    (* what the [onError] callback has recorded *)
}.

(** One invocation of the operation: it returns or throws after some
    milliseconds, or never settles. *)
Inductive Run (T : Type) : Type :=
| Returns (took : Z) (v : T)
| Throws (took : Z) (e : Error)
| Hangs.

Arguments Returns {T} took v.
Arguments Throws {T} took e.
Arguments Hangs {T}.

(** [operation: () => Promise<T>], by the number of earlier invocations. *)
Definition Operation (T : Type) : Type := nat -> Run T.

(** Here [shouldRetry] and [onError] are callbacks that return;
    [RetryCallbacks] below has callbacks that may throw. *)
Record ErrorHandlerConfig : Type := mkConfig {
  timeoutMs : Z;
  retryAttempts : Z;
  retryDelay : Z;
  shouldRetry : Error -> bool;
  onError : Error -> list Error -> list Error  (* what the callback records *)
}.

(** [Partial<ErrorHandlerConfig>] *)
Record PartialConfig : Type := mkPartial {
  p_timeoutMs : option Z;
  p_retryAttempts : option Z;
  p_retryDelay : option Z;
  p_shouldRetry : option (Error -> bool);
  p_onError : option (Error -> list Error -> list Error)
}.

Definition is_timeout (e : Error) : bool :=
  match e with OperationTimeoutError _ _ => true | _ => false end.

Definition report (e : Error) (log : list Error) : list Error := log ++ [e].

Definition defaultConfig : ErrorHandlerConfig :=
  mkConfig 5000 3 1000 (fun error => negb (is_timeout error)) report.

Definition or_default {A} (o : option A) (d : A) : A :=
  match o with Some a => a | None => d end.

(** [{ ...defaultConfig, ...config }] *)
Definition finalConfig (config : PartialConfig) : ErrorHandlerConfig :=
  mkConfig (or_default (p_timeoutMs config) (timeoutMs defaultConfig))
           (or_default (p_retryAttempts config) (retryAttempts defaultConfig))
           (or_default (p_retryDelay config) (retryDelay defaultConfig))
           (or_default (p_shouldRetry config) (shouldRetry defaultConfig))
           (or_default (p_onError config) (onError defaultConfig)).

(** [Promise.race([operation(), timeoutPromise])]: the operation wins when
    it settles before the timer fires. *)
Definition race {T} (r : Run T) (timeoutMs : Z) (operationType : string)
  : Outcome T :=
  match r with
  | Returns took v =>
      if (took <? timeoutMs)%Z then Resolved v
      else Rejected (OperationTimeoutError operationType timeoutMs)
  | Throws took e =>
      if (took <? timeoutMs)%Z then Rejected e
      else Rejected (OperationTimeoutError operationType timeoutMs)
  | Hangs => Rejected (OperationTimeoutError operationType timeoutMs)
  end.

Definition withTimeout {T} (operation : Operation T) (timeoutMs : Z)
    (operationType : string) : Async World T :=
  fun w =>
    (race (operation (calls w)) timeoutMs operationType,
     mkWorld (S (calls w)) (slept w) (reported w)).

(** [await new Promise(resolve => setTimeout(resolve, ms))] *)
Definition sleep (ms : Z) : Async World unit :=
  fun w => (Resolved tt, mkWorld (calls w) (slept w ++ [ms]) (reported w)).

(** The [for] loop of [withRetry] with [remaining] turns to go: [inl v]
    is the [return] from inside the loop, [inr lastError] is leaving the
    loop. *)
Fixpoint retryLoop {T} (cfg : ErrorHandlerConfig) (operation : Operation T)
    (remaining : nat) (attempt : Z) (lastError : Error)
  : Async World (T + Error) :=
  match remaining with
  | O => ret (inr lastError)
  | S remaining' =>
      r <- try_catch
             (v <- withTimeout operation (timeoutMs cfg) "retryableOperation" ;;
              ret (inl v))
             (fun error => ret (inr error)) ;;
      match r with
      | inl v => ret (inl v)
      | inr error =>
          if negb (shouldRetry cfg error) then ret (inr error)
          else
            (if (attempt <? retryAttempts cfg - 1)%Z
             then sleep (retryDelay cfg * (attempt + 1))
             else ret tt) ;;
            retryLoop cfg operation remaining' (attempt + 1)%Z error
      end
  end.

Definition withRetry {T} (operation : Operation T) (config : PartialConfig)
  : Async World T :=
  let cfg := finalConfig config in
  r <- retryLoop cfg operation (Z.to_nat (retryAttempts cfg)) 0%Z Undefined ;;
  match r with
  | inl v => ret v
  | inr lastError =>
      (fun w => (Resolved tt,
                 mkWorld (calls w) (slept w) (onError cfg lastError (reported w)))) ;;
      throw lastError
  end.

(** The delays a call added to [slept]. *)
Definition new_delays (before after : World) : list Z :=
  skipn (List.length (slept before)) (slept after).

(** The delay before the retry that follows failed attempt [k] (from 0). *)
Definition linear_delay (cfg : ErrorHandlerConfig) (k : nat) : Z :=
  (retryDelay cfg * (Z.of_nat k + 1))%Z.

(** Every attempt the loop can make is rejected with an error
    [shouldRetry] accepts. *)
Definition keeps_failing {T} (cfg : ErrorHandlerConfig)
    (operation : Operation T) (first : nat) : bool :=
  forallb
    (fun k =>
       match race (operation k) (timeoutMs cfg) "retryableOperation" with
       | Rejected e => shouldRetry cfg e
       | _ => false
       end)
    (seq first (Z.to_nat (retryAttempts cfg))).

(** The delay the claimed policy asks for after failed attempt [k]:
    base delay times 2 to the power of the attempt. *)
Definition exponential_delay (base : Z) (k : nat) : Z :=
  (base * 2 ^ Z.of_nat k)%Z.

(** An operation that throws a network error after 10 ms, every time. *)
Definition always_throws : Operation unit :=
  fun _ => Throws 10 (OtherError "network").

(** The default configuration with six attempts. *)
Definition six_attempts : PartialConfig :=
  mkPartial None (Some 6%Z) None None None.

Definition fresh : World := mkWorld 0 [] [].

(** An operation that throws a network error twice and then returns 42,
    each time after 10 ms. *)
Definition flaky : Operation nat :=
  fun n => if (n <? 2)%nat then Throws 10 (OtherError "network")
           else Returns 10 42%nat.

(** An operation that never settles. *)
Definition hanging : Operation unit := fun _ => Hangs.

(** No caller settings: every field falls back to the default. *)
Definition no_config : PartialConfig := mkPartial None None None None None.

End ErrorHandling.

(** ** EncryptionService *)

Module Encryption.

(** The parts of the [elliptic], [buffer] and [ethers] libraries the
    service calls. [Entropy] is the state of the random source. *)
Record Library : Type := mkLibrary {
  Entropy : Type;
  KeyPair : Type;
  Point : Type;
  BN : Type;
  genKeyPair : Entropy -> KeyPair * Entropy;
  getPrivate : KeyPair -> string;
  getPublic : KeyPair -> string;
  keyFromPublic : string -> option Point;  (* [None]: the key is refused *)
  derive : KeyPair -> Point -> BN;
  toString16 : BN -> string;
  keccak256 : string -> string;
  randomBytes : nat -> Entropy -> string * Entropy
}.

Section Service.

Variable lib : Library.

Definition ec_genKeyPair : Async (Entropy lib) (KeyPair lib) :=
  fun s => let (kp, s') := genKeyPair lib s in (Resolved kp, s').

Definition ec_keyFromPublic (hex : string) : Async (Entropy lib) (Point lib) :=
  match keyFromPublic lib hex with
  | Some p => ret p
  | None => throw InvalidKeyError
  end.

Definition ethers_randomBytes (n : nat) : Async (Entropy lib) string :=
  fun s => let (b, s') := randomBytes lib n s in (Resolved b, s').

Definition generateKeyPair : Async (Entropy lib) (string * string) :=
  keyPair <- ec_genKeyPair ;;
  ret (getPrivate lib keyPair, getPublic lib keyPair).

(** The source ends in [return encrypted;] where no [encrypted] was ever
    declared: evaluating the identifier throws. *)
Definition encryptMessage (message recipientPublicKey : string)
  : Async (Entropy lib) string :=
  ephemeral <- ec_genKeyPair ;;
  recipientPoint <- ec_keyFromPublic recipientPublicKey ;;
  let sharedSecret := derive lib ephemeral recipientPoint in
  let key := keccak256 lib (toString16 lib sharedSecret) in
  iv <- ethers_randomBytes 16 ;;
  throw (ReferenceError "encrypted").

(** The source is [return decrypted;] and nothing else. *)
Definition decryptMessage (encryptedMessage privateKey : string)
  : Async (Entropy lib) string :=
  throw (ReferenceError "decrypted").

(** [decryptMessage(await encryptMessage(P, pub), priv)] *)
Definition roundtrip (P pub priv : string) : Async (Entropy lib) string :=
  encrypted <- encryptMessage P pub ;;
  decryptMessage encrypted priv.

End Service.

End Encryption.

(** ** getPendingMessages over what the storage can really hold

    [OfflineStorage] above types the stored value as an array of
    messages, which is all the class ever writes. AsyncStorage holds
    text, and any text can be under the key; here the read is modelled
    over every text, by what [JSON.parse] makes of it. *)

Module OfflineStorageJson.

(** A JSON value. A number is the rational [numerator / denominator]. *)
#[warnings="-register-all"]
Inductive Json : Type :=
| JNull
| JBool (b : bool)
| JNumber (numerator : Z) (denominator : positive)
| JString (s : string)
| JArray (items : list Json)
| JObject (fields : list (string * Json)).

Definition is_array (v : Json) : bool :=
  match v with JArray _ => true | _ => false end.

Definition status_text (s : Status) : string :=
  match s with
  | pending => "pending"
  | submitting => "submitting"
  | confirmed => "confirmed"
  | failed => "failed"
  end.

(** What [JSON.parse(JSON.stringify(m))] is for a message [m]. *)
Definition message_json (m : Message) : Json :=
  JObject [("id", JString (id m));
           ("sender", JString (sender m));
           ("recipient", JString (recipient m));
           ("content", JString (content m));
           ("timestamp", JNumber (timestamp m) 1);
           ("status", JString (status_text (status m)))].

(** What AsyncStorage holds under ['pendingMessages']: nothing ([null]),
    the empty string, a text [JSON.parse] rejects, or a text
    [JSON.parse] turns into the value [v], whatever value that is. *)
Inductive StoredText : Type :=
| NoItem
| EmptyText
| NotJson
| JsonText (v : Json).

Record World : Type := mkWorld {
  stored : StoredText;         (* AsyncStorage, PENDING_MESSAGES_KEY *)
  disk_script : list Fate      (* fates of the coming AsyncStorage calls *)
}.

(** [AsyncStorage.getItem(OfflineStorage.PENDING_MESSAGES_KEY)] *)
Definition getItem_PENDING_MESSAGES_KEY : Async World StoredText :=
  fun w =>
    let (f, rest) := next_fate (disk_script w) in
    let w' := mkWorld (stored w) rest in
    match f with
    | Fine => (Resolved (stored w), w')
    | Fails => (Rejected StorageError, w')
    | Dies => (Killed, w')
    end.

(** [messages ? JSON.parse(messages) : []]: the parsed value is returned
    as it is, array or not. *)
Definition parse_or_empty (messages : StoredText) : Async World Json :=
  match messages with
  | NoItem => ret (JArray [])
  | EmptyText => ret (JArray [])
  | NotJson => throw SyntaxError
  | JsonText v => ret v
  end.

Definition getPendingMessages : Async World Json :=
  try_catch
    (messages <- getItem_PENDING_MESSAGES_KEY ;;
     parse_or_empty messages)
    (fun _error => ret (JArray [])).

(** The text behind an [OfflineStorage.Item]. *)
Definition text_of (i : OfflineStorage.Item) : StoredText :=
  match i with
  | OfflineStorage.Absent => NoItem
  | OfflineStorage.Blank => EmptyText
  | OfflineStorage.Corrupt => NotJson
  | OfflineStorage.Stored l => JsonText (JArray (map message_json l))
  end.

(** The storage of an [OfflineStorage.World], as text. *)
Definition raw (w : OfflineStorage.World) : World :=
  mkWorld (text_of (OfflineStorage.pendingMessages w))
          (OfflineStorage.disk_script w).

End OfflineStorageJson.

(** ** withRetry and createErrorBoundary with callbacks that may throw

    [ErrorHandling] above takes [shouldRetry] and [onError] as functions
    that return. A callback is code of the caller and may throw; here
    the same two functions are modelled with callbacks that return or
    throw and that may change the state they can reach. *)

Module RetryCallbacks.

Section Callbacks.

(** What the callbacks can see and change: the console, the emitter and
    its listeners, the caller's own state. *)
Variable U : Type.

(** A callback returns a value ([inl]) or throws ([inr]). *)
Definition Callback (A : Type) : Type := Error -> U -> (A + Error) * U.

Record World : Type := mkWorld {
  calls : nat;             (* how often [operation] has been invoked *)
  slept : list Z;          (* the delays handed to [setTimeout], oldest first *)
  handled : list Error;    (* the argument of every call of an [onError]
                              callback, oldest first *)
  user : U
}.

Record ErrorHandlerConfig : Type := mkConfig {
  timeoutMs : Z;
  retryAttempts : Z;
  retryDelay : Z;
  shouldRetry : Callback bool;
  onError : Callback unit
}.

(** [Partial<ErrorHandlerConfig>] *)
Record PartialConfig : Type := mkPartial {
  p_timeoutMs : option Z;
  p_retryAttempts : option Z;
  p_retryDelay : option Z;
  p_shouldRetry : option (Callback bool);
  p_onError : option (Callback unit)
}.

(** [console.error] and [performanceEmitter.emit], which the default
    [onError] calls; [emit] throws when the emitter decides so. *)
Variable console_error : Error -> U -> U.
Variable emit : string -> Error -> U -> (unit + Error) * U.

Definition defaultConfig : ErrorHandlerConfig :=
  mkConfig 5000 3 1000
    (fun error u => (inl (negb (ErrorHandling.is_timeout error)), u))
    (fun error u => emit "error" error (console_error error u)).

(** [{ ...defaultConfig, ...config }] *)
Definition finalConfig (config : PartialConfig) : ErrorHandlerConfig :=
  mkConfig
    (ErrorHandling.or_default (p_timeoutMs config) (timeoutMs defaultConfig))
    (ErrorHandling.or_default (p_retryAttempts config)
       (retryAttempts defaultConfig))
    (ErrorHandling.or_default (p_retryDelay config) (retryDelay defaultConfig))
    (ErrorHandling.or_default (p_shouldRetry config) (shouldRetry defaultConfig))
    (ErrorHandling.or_default (p_onError config) (onError defaultConfig)).

(** A call of a callback: what it throws rejects the caller's promise. *)
Definition call {A} (f : Callback A) (e : Error) : Async World A :=
  fun w =>
    match f e (user w) with
    | (inl a, u) => (Resolved a, mkWorld (calls w) (slept w) (handled w) u)
    | (inr x, u) => (Rejected x, mkWorld (calls w) (slept w) (handled w) u)
    end.

(** A call of an [onError] callback, noted in [handled]. *)
Definition call_onError (f : Callback unit) (e : Error) : Async World unit :=
  fun w => call f e (mkWorld (calls w) (slept w) (handled w ++ [e]) (user w)).

Definition withTimeout {T} (operation : ErrorHandling.Operation T)
    (timeoutMs : Z) (operationType : string) : Async World T :=
  fun w =>
    (ErrorHandling.race (operation (calls w)) timeoutMs operationType,
     mkWorld (S (calls w)) (slept w) (handled w) (user w)).

(** [await new Promise(resolve => setTimeout(resolve, ms))] *)
Definition sleep (ms : Z) : Async World unit :=
  fun w =>
    (Resolved tt, mkWorld (calls w) (slept w ++ [ms]) (handled w) (user w)).

(** The [for] loop of [withRetry]: [inl v] is the [return] from inside
    the loop, [inr lastError] is leaving the loop; what [shouldRetry]
    throws in the [catch] block leaves the function. *)
Fixpoint retryLoop {T} (cfg : ErrorHandlerConfig)
    (operation : ErrorHandling.Operation T)
    (remaining : nat) (attempt : Z) (lastError : Error)
  : Async World (T + Error) :=
  match remaining with
  | O => ret (inr lastError)
  | S remaining' =>
      r <- try_catch
             (v <- withTimeout operation (timeoutMs cfg) "retryableOperation" ;;
              ret (inl v))
             (fun error => ret (inr error)) ;;
      match r with
      | inl v => ret (inl v)
      | inr error =>
          again <- call (shouldRetry cfg) error ;;
          if negb again then ret (inr error)
          else
            (if (attempt <? retryAttempts cfg - 1)%Z
             then sleep (retryDelay cfg * (attempt + 1))
             else ret tt) ;;
            retryLoop cfg operation remaining' (attempt + 1)%Z error
      end
  end.

Definition withRetry {T} (operation : ErrorHandling.Operation T)
    (config : PartialConfig) : Async World T :=
  let cfg := finalConfig config in
  r <- retryLoop cfg operation (Z.to_nat (retryAttempts cfg)) 0%Z Undefined ;;
  match r with
  | inl v => ret v
  | inr lastError =>
      call_onError (onError cfg) lastError ;;
      throw lastError
  end.

(** [withRetry(operation, config).catch(error => { config.onError?.(error);
    return fallback; })] *)
Definition createErrorBoundary {T} (operation : ErrorHandling.Operation T)
    (fallback : T) (config : PartialConfig) : Async World T :=
  try_catch (withRetry operation config)
    (fun error =>
       match p_onError config with
       | Some f => call_onError f error
       | None => ret tt
       end ;;
       ret fallback).

(** The callback returns on every error, in every state. *)
Definition returns {A} (f : Callback A) : Prop :=
  forall e u, exists a, fst (f e u) = inl a.

End Callbacks.

Arguments mkWorld {U} calls slept handled user.
Arguments mkPartial {U} _ _ _ _ _.
Arguments withRetry {U} console_error emit {T} operation config.
Arguments createErrorBoundary {U} console_error emit {T} operation fallback config.
Arguments finalConfig {U} console_error emit config.
Arguments returns {U A} f.
Arguments calls {U} w.
Arguments slept {U} w.
Arguments handled {U} w.
Arguments user {U} w.
Arguments mkConfig {U} _ _ _ _ _.
Arguments timeoutMs {U} e.
Arguments retryAttempts {U} e.
Arguments retryDelay {U} e.
Arguments shouldRetry {U} e.
Arguments onError {U} e.
Arguments p_timeoutMs {U} p.
Arguments p_retryAttempts {U} p.
Arguments p_retryDelay {U} p.
Arguments p_shouldRetry {U} p.
Arguments p_onError {U} p.
Arguments defaultConfig {U} console_error emit.
Arguments call {U A} f e.
Arguments call_onError {U} f e.
Arguments withTimeout {U T} operation timeoutMs operationType.
Arguments sleep {U} ms.
Arguments retryLoop {U T} cfg operation remaining attempt lastError.

(** Callbacks and an emitter for concrete runs, over a state that is the
    list of the errors written to the console. *)
Definition console : Error -> list Error -> list Error :=
  fun e log => log ++ [e].

(** An emitter with a listener for every event: [emit] returns. *)
Definition emit_heard : string -> Error -> list Error -> (unit + Error) * list Error :=
  fun _ _ log => (inl tt, log).

(** A caller's [onError] that writes to the console and returns. *)
Definition noting : Callback (list Error) unit :=
  fun e log => (inl tt, log ++ [e]).

(** A caller's [onError] that throws what it is given. *)
Definition rethrowing : Callback (list Error) unit :=
  fun e log => (inr e, log).

(** A configuration of [ErrorHandling], whose callbacks return, as a
    configuration with callbacks over the record of [onError]. *)
Definition returning (c : ErrorHandling.PartialConfig)
  : PartialConfig (list Error) :=
  mkPartial
    (ErrorHandling.p_timeoutMs c)
    (ErrorHandling.p_retryAttempts c)
    (ErrorHandling.p_retryDelay c)
    (option_map (fun g error log => (inl (g error), log))
       (ErrorHandling.p_shouldRetry c))
    (option_map (fun f error log => (inl tt, f error log))
       (ErrorHandling.p_onError c)).

(** A world of [ErrorHandling] with a record of the [onError] calls. *)
Definition with_handled (h : list Error) (w : ErrorHandling.World)
  : World (list Error) :=
  mkWorld (ErrorHandling.calls w) (ErrorHandling.slept w) h
    (ErrorHandling.reported w).

(** A [shouldRetry] that throws: it reads a property of an error that
    has none. *)
Definition failing_shouldRetry : Callback (list Error) bool :=
  fun _ log => (inr (OtherError "TypeError"), log).

End RetryCallbacks.

(** ** The messaging contract (contracts/MessagingContract.sol) *)

Module MessagingContract.

(** [address]: a 160-bit number. *)
Definition address : Type := N.

Record Message : Type := mkMessage {
  sender : address;
  encryptedContent : string;
  timestamp : N;              (* uint256, the block time *)
  isRead : bool
}.

(** [event MessageSent(from, to, timestamp)] *)
Record MessageSent : Type := mkMessageSent {
  ev_from : address;
  ev_to : address;
  ev_timestamp : N
}.

(** The storage of the contract and the events it has emitted. A mapping
    holds the zero value, here the empty array or the empty string, at
    every key never written. *)
Record State : Type := mkState {
  messages : address -> address -> list Message;
  userProfiles : address -> string;
  events : list MessageSent
}.

Definition deployed : State :=
  mkState (fun _ _ => []) (fun _ => "") [].

(** [messages[a][b].push(m)] *)
Definition push (a b : address) (m : Message) (s : State) : State :=
  mkState
    (fun x y =>
       if (x =? a)%N && (y =? b)%N then messages s x y ++ [m]
       else messages s x y)
    (userProfiles s) (events s).

Definition emit (e : MessageSent) (s : State) : State :=
  mkState (messages s) (userProfiles s) (events s ++ [e]).

(** [sendMessage(_to, _encryptedContent)] called by [msg_sender] in a
    block of time [block_timestamp]. *)
Definition sendMessage (msg_sender : address) (block_timestamp : N)
    (_to : address) (_encryptedContent : string) (s : State) : State :=
  let newMessage :=
    mkMessage msg_sender _encryptedContent block_timestamp false in
  let s1 := push msg_sender _to newMessage s in
  let s2 := push _to msg_sender newMessage s1 in
  emit (mkMessageSent msg_sender _to block_timestamp) s2.

(** [getMessages(_with)] called by [msg_sender]. *)
Definition getMessages (msg_sender _with : address) (s : State)
  : list Message :=
  messages s msg_sender _with.

(** [updateProfile(_profileData)] called by [msg_sender]. *)
Definition updateProfile (msg_sender : address) (_profileData : string)
    (s : State) : State :=
  mkState (messages s)
    (fun a => if (a =? msg_sender)%N then _profileData else userProfiles s a)
    (events s).

(** A transaction that changes the state. *)
Inductive Call : Type :=
| SendMessage (msg_sender : address) (block_timestamp : N)
              (_to : address) (_encryptedContent : string)
| UpdateProfile (msg_sender : address) (_profileData : string).

Definition execute (s : State) (c : Call) : State :=
  match c with
  | SendMessage a t b content => sendMessage a t b content s
  | UpdateProfile a data => updateProfile a data s
  end.

(** The transactions of a history applied in order. *)
Definition run (history : list Call) (s : State) : State :=
  fold_left execute history s.

Definition is_send (c : Call) : bool :=
  match c with SendMessage _ _ _ _ => true | _ => false end.

End MessagingContract.

(** * Properties *)

(** ** The promise monad *)

Lemma survives_next script :
  survives script = true ->
  is_dies (fst (next_fate script)) = false /\
  survives (snd (next_fate script)) = true.
Proof.
  destruct script as [|f rest]; simpl; auto.
  intros H. apply andb_true_iff in H. destruct H as [H1 H2].
  split; auto. destruct f; simpl in *; auto.
Qed.

Lemma calm_next script :
  calm script = true ->
  fst (next_fate script) = Fine /\ calm (snd (next_fate script)) = true.
Proof.
  destruct script as [|f rest]; simpl; auto.
  intros H. apply andb_true_iff in H. destruct H as [H1 H2].
  split; auto. destruct f; simpl in *; auto; discriminate.
Qed.

Lemma calm_survives script : calm script = true -> survives script = true.
Proof.
  induction script as [|f rest IH]; simpl; auto.
  intros H. apply andb_true_iff in H. destruct H as [H1 H2].
  rewrite IH by assumption. destruct f; simpl in *; auto.
Qed.

Module OfflineStorageFacts.

Import OfflineStorage.

(** *** getPendingMessages *)

(** What [getPendingMessages] does, by the fate of its one read. *)
Lemma getPendingMessages_eq w :
  getPendingMessages w =
  let w' := set_disk_script (snd (next_fate (disk_script w))) w in
  match fst (next_fate (disk_script w)) with
  | Fine => (Resolved (durable_pending w), w')
  | Fails => (Resolved [], w')
  | Dies => (Killed, w')
  end.
Proof.
  unfold getPendingMessages, getItem_PENDING_MESSAGES_KEY, disk_op, try_catch,
    bind, durable_pending.
  destruct (next_fate (disk_script w)) as [f rest]. simpl.
  destruct f; simpl; try reflexivity.
  destruct (pendingMessages w); reflexivity.
Qed.

(** What one write of the pending list does, by its fate. *)
Lemma setItem_PENDING_MESSAGES_KEY_eq l w :
  setItem_PENDING_MESSAGES_KEY l w =
  let w' := set_disk_script (snd (next_fate (disk_script w))) w in
  match fst (next_fate (disk_script w)) with
  | Fine => (Resolved tt, set_pendingMessages (Stored l) w')
  | Fails => (Rejected StorageError, w')
  | Dies => (Killed, w')
  end.
Proof.
  unfold setItem_PENDING_MESSAGES_KEY, disk_op.
  destruct (next_fate (disk_script w)) as [f rest]. simpl.
  destruct f; reflexivity.
Qed.

(** *** storeMessage *)

Lemma sendMessageToContract_eq m w :
  sendMessageToContract m w =
  let w' := set_ledger_script (snd (next_fate (ledger_script w))) w in
  match fst (next_fate (ledger_script w)) with
  | Fine => (Resolved tt, log_submission m true w')
  | Fails => (Rejected SubmissionError, log_submission m false w')
  | Dies => (Killed, w')
  end.
Proof.
  unfold sendMessageToContract.
  destruct (next_fate (ledger_script w)) as [f rest]. simpl.
  destruct f; reflexivity.
Qed.

(** Unfold one call down to the scripts and split on the next fates. *)
Ltac run_calls :=
  unfold storeMessage, removePendingMessage, try_catch, bind, throw, ret;
  repeat (rewrite ?getPendingMessages_eq, ?setItem_PENDING_MESSAGES_KEY_eq,
            ?sendMessageToContract_eq; cbv zeta; simpl).

(** What [storeMessage] does, by the fates of its read and its write. *)
Lemma storeMessage_eq m w :
  storeMessage m w =
  let f1 := fst (next_fate (disk_script w)) in
  let s1 := snd (next_fate (disk_script w)) in
  let f2 := fst (next_fate s1) in
  let s2 := snd (next_fate s1) in
  let l := match f1 with Fine => durable_pending w | _ => [] end in
  match f1 with
  | Dies => (Killed, set_disk_script s1 w)
  | _ =>
      match f2 with
      | Fine => (Resolved tt,
                 set_pendingMessages (Stored (l ++ [m])) (set_disk_script s2 w))
      | Fails => (Rejected StorageError, set_disk_script s2 w)
      | Dies => (Killed, set_disk_script s2 w)
      end
  end.
Proof.
  destruct w as [item ls lg ds lsc on nw].
  run_calls.
  destruct ds as [|f1 [|f2 ds]]; try destruct f1; try destruct f2;
    reflexivity.
Qed.

(** What [removePendingMessage] does, by the fates of its read and its
    write. *)
Lemma removePendingMessage_eq i w :
  removePendingMessage i w =
  let f1 := fst (next_fate (disk_script w)) in
  let s1 := snd (next_fate (disk_script w)) in
  let f2 := fst (next_fate s1) in
  let s2 := snd (next_fate s1) in
  let l := match f1 with Fine => durable_pending w | _ => [] end in
  match f1 with
  | Dies => (Killed, set_disk_script s1 w)
  | _ =>
      match f2 with
      | Fine => (Resolved tt,
                 set_pendingMessages
                   (Stored (filter (fun m => negb (String.eqb (id m) i)) l))
                   (set_disk_script s2 w))
      | Fails => (Rejected StorageError, set_disk_script s2 w)
      | Dies => (Killed, set_disk_script s2 w)
      end
  end.
Proof.
  destruct w as [item ls lg ds lsc on nw].
  run_calls.
  destruct ds as [|f1 [|f2 ds]]; try destruct f1; try destruct f2;
    reflexivity.
Qed.

(** A successful [storeMessage] leaves the message last in the stored
    array, after the entries its own read returned. *)
Lemma storeMessage_durable m w w' :
  storeMessage m w = (Resolved tt, w') ->
  exists l,
    pendingMessages w' = Stored (l ++ [m]) /\
    In m (durable_pending w') /\
    (fst (next_fate (disk_script w)) = Fine -> l = durable_pending w) /\
    ledger w' = ledger w.
Proof.
  rewrite storeMessage_eq. cbv zeta.
  destruct (fst (next_fate (disk_script w))) eqn:F1;
    destruct (fst (next_fate (snd (next_fate (disk_script w))))) eqn:F2;
    intros H; inversion H; subst; clear H;
    [ exists (durable_pending w) | exists (@nil Message) ];
    (split; [reflexivity|]);
    (split; [unfold durable_pending;
             cbn [pendingMessages set_pendingMessages];
             first [ apply in_or_app; right; left; reflexivity
                   | left; reflexivity ]|]);
    (split; [try discriminate; reflexivity | reflexivity]).
Qed.

(** When the write of [storeMessage] fails the call rejects with that
    error; the stored array and the ledger are as before. *)
Lemma storeMessage_write_failure m w :
  fst (next_fate (disk_script w)) <> Dies ->
  fst (next_fate (snd (next_fate (disk_script w)))) = Fails ->
  fst (storeMessage m w) = Rejected StorageError /\
  pendingMessages (snd (storeMessage m w)) = pendingMessages w /\
  ledger (snd (storeMessage m w)) = ledger w.
Proof.
  intros H1 H2. rewrite storeMessage_eq. cbv zeta. rewrite H2.
  destruct (fst (next_fate (disk_script w))); try (exfalso; apply H1; reflexivity);
    repeat split.
Qed.

(** C2. The input on which [storeMessage] loses entries: the read inside
    [storeMessage] fails and its write succeeds. The call resolves, and
    the stored array is the new message alone, whatever was pending
    before. *)
Theorem storeMessage_after_failed_read
    (before : list Message) (m : Message) (rest : list Fate) (w : World) :
  let w0 := set_pendingMessages (Stored before)
              (set_disk_script (Fails :: Fine :: rest) w) in
  durable_pending w0 = before /\
  fst (storeMessage m w0) = Resolved tt /\
  durable_pending (snd (storeMessage m w0)) = [m] /\
  fst (getPendingMessages (snd (storeMessage m w0))) =
    match fst (next_fate rest) with
    | Fine => Resolved [m]
    | Fails => Resolved []
    | Dies => Killed
    end.
Proof.
  cbv zeta. rewrite storeMessage_eq. cbv zeta. simpl.
  rewrite getPendingMessages_eq. cbv zeta. simpl.
  repeat split. destruct (fst (next_fate rest)); reflexivity.
Qed.

(** *** The order of the pending entries *)

Lemma storeMessage_calm m w :
  calm (disk_script w) = true ->
  fst (storeMessage m w) = Resolved tt /\
  durable_pending (snd (storeMessage m w)) = durable_pending w ++ [m] /\
  calm (disk_script (snd (storeMessage m w))) = true.
Proof.
  intros H. rewrite storeMessage_eq. cbv zeta.
  destruct (calm_next _ H) as [F1 C1]. destruct (calm_next _ C1) as [F2 C2].
  rewrite F1, F2. simpl. repeat split. exact C2.
Qed.

Lemma storeMessages_calm ms : forall w,
  calm (disk_script w) = true ->
  fst (storeMessages ms w) = Resolved tt /\
  durable_pending (snd (storeMessages ms w)) = durable_pending w ++ ms /\
  calm (disk_script (snd (storeMessages ms w))) = true.
Proof.
  induction ms as [|m rest IH]; intros w H.
  - simpl. rewrite app_nil_r. auto.
  - destruct (storeMessage_calm m w H) as [R [D C]].
    simpl. unfold bind.
    destruct (storeMessage m w) as [o w1] eqn:E. simpl in R, D, C. subst o.
    destruct (IH w1 C) as [R' [D' C']].
    rewrite D in D'. rewrite <- app_assoc in D'. simpl in D'. auto.
Qed.

(** C5, as the code has it. [getPendingMessages] returns the stored
    array as it is: after any run of [storeMessage] calls on working
    storage, the entries that were pending before come first and the new
    ones follow in the order of the calls, whatever their timestamps. *)
Theorem getPendingMessages_insertion_order (ms : list Message) (w : World) :
  calm (disk_script w) = true ->
  fst (storeMessages ms w) = Resolved tt /\
  fst (getPendingMessages (snd (storeMessages ms w))) =
    Resolved (durable_pending w ++ ms).
Proof.
  intros H. destruct (storeMessages_calm ms w H) as [R [D C]].
  split; [exact R|]. rewrite getPendingMessages_eq. cbv zeta.
  destruct (calm_next _ C) as [F _]. rewrite F, D. reflexivity.
Qed.

Lemma getPendingMessages_insertion_order_witness :
  calm (disk_script (quiet (Stored [a_message "0" 300]))) = true /\
  fst (getPendingMessages
         (snd (storeMessages [a_message "1" 200; a_message "2" 100]
                 (quiet (Stored [a_message "0" 300]))))) =
    Resolved [a_message "0" 300; a_message "1" 200; a_message "2" 100].
Proof.
  split; [reflexivity|].
  apply (getPendingMessages_insertion_order
           [a_message "1" 200; a_message "2" 100]
           (quiet (Stored [a_message "0" 300]))).
  reflexivity.
Defined.

(** C5, as stated, fails: two messages enqueued with the later timestamp
    first come back in that order, which is not ascending. *)
Lemma getPendingMessages_not_sorted :
  let w := snd (storeMessages [a_message "1" 200; a_message "2" 100]
                  (quiet Absent)) in
  fst (getPendingMessages w) =
    Resolved [a_message "1" 200; a_message "2" 100] /\
  ascending [a_message "1" 200; a_message "2" 100] = false.
Proof. split; reflexivity. Qed.

(** *** syncMessages *)

Lemma syncLoop_cons message rest w :
  syncLoop (message :: rest) w = (turn message ;; syncLoop rest) w.
Proof. reflexivity. Qed.

(** A turn on surviving scripts: the message is submitted once, whatever
    else happens, and the turn ends normally. *)
Lemma turn_survives m w :
  survives (disk_script w) = true ->
  survives (ledger_script w) = true ->
  fst (turn m w) = Resolved tt /\
  map sub_msg (ledger (snd (turn m w))) = map sub_msg (ledger w) ++ [m] /\
  survives (disk_script (snd (turn m w))) = true /\
  survives (ledger_script (snd (turn m w))) = true.
Proof.
  intros Hd Hl. unfold turn, try_catch, bind.
  rewrite sendMessageToContract_eq. cbv zeta.
  destruct (survives_next _ Hl) as [L1 L2].
  destruct (fst (next_fate (ledger_script w))) eqn:FL; try discriminate.
  - rewrite removePendingMessage_eq. cbv zeta.
    cbn [disk_script log_submission set_ledger_script].
    destruct (survives_next _ Hd) as [D1 D2].
    destruct (survives_next _ D2) as [D3 D4].
    destruct (fst (next_fate (disk_script w))); try discriminate;
      destruct (fst (next_fate (snd (next_fate (disk_script w)))));
      try discriminate; simpl; rewrite map_app; auto.
  - simpl. rewrite map_app. auto.
Qed.

Lemma syncLoop_survives rest : forall w,
  survives (disk_script w) = true ->
  survives (ledger_script w) = true ->
  fst (syncLoop rest w) = Resolved tt /\
  map sub_msg (ledger (snd (syncLoop rest w))) = map sub_msg (ledger w) ++ rest /\
  survives (disk_script (snd (syncLoop rest w))) = true.
Proof.
  induction rest as [|m rest IH]; intros w Hd Hl.
  - simpl. rewrite app_nil_r. auto.
  - rewrite syncLoop_cons. unfold bind.
    destruct (turn_survives m w Hd Hl) as [R [L [D' L']]].
    destruct (turn m w) as [o w1]. simpl in R, L, D', L'. subst o.
    destruct (IH w1 D' L') as [R2 [L2 D2]].
    rewrite L2, L, <- app_assoc. auto.
Qed.

(** C1, as the code has it. [syncMessages] asks the ledger nothing before
    it submits: when the process survives the pass, the messages it
    submits are exactly the entries its read of the pending store
    returned, each once and in stored order, whatever the ledger already
    holds; offline it submits nothing. *)
Theorem syncMessages_submits_what_is_stored (w : World) :
  survives (disk_script w) = true ->
  survives (ledger_script w) = true ->
  map sub_msg (ledger (snd (syncMessages w))) =
    map sub_msg (ledger w) ++
    (if online w then
       match fst (next_fate (disk_script w)) with
       | Fine => durable_pending w
       | _ => []
       end
     else []).
Proof.
  intros Hd Hl. unfold syncMessages.
  destruct (online w); simpl; [|rewrite app_nil_r; reflexivity].
  unfold bind. rewrite getPendingMessages_eq. cbv zeta.
  destruct (survives_next _ Hd) as [D1 D2].
  set (w1 := set_disk_script (snd (next_fate (disk_script w))) w).
  assert (Hd1 : survives (disk_script w1) = true) by exact D2.
  assert (Hl1 : survives (ledger_script w1) = true) by exact Hl.
  destruct (fst (next_fate (disk_script w))); try discriminate.
  - destruct (syncLoop_survives (durable_pending w) w1 Hd1 Hl1) as [R [L D]].
    destruct (syncLoop (durable_pending w) w1) as [o w2].
    simpl in R, L, D. subst o.
    unfold setItem_LAST_SYNC_KEY, disk_op.
    destruct (next_fate (disk_script w2)) as [f r].
    destruct f; simpl; rewrite L; reflexivity.
  - simpl. unfold setItem_LAST_SYNC_KEY, disk_op. simpl.
    destruct (next_fate (snd (next_fate (disk_script w)))) as [f r].
    destruct f; simpl; rewrite app_nil_r; reflexivity.
Qed.

Lemma syncMessages_submits_what_is_stored_witness :
  let w := mkWorld (Stored [a_message "1" 100]) None
             [mkSubmission (a_message "1" 100) true] [] [] true 1700000000000%Z in
  survives (disk_script w) = true /\
  survives (ledger_script w) = true /\
  map sub_msg (ledger (snd (syncMessages w))) =
    [a_message "1" 100; a_message "1" 100].
Proof.
  cbv zeta. split; [reflexivity|]. split; [reflexivity|].
  apply (syncMessages_submits_what_is_stored
           (mkWorld (Stored [a_message "1" 100]) None
              [mkSubmission (a_message "1" 100) true] [] [] true
              1700000000000%Z)); reflexivity.
Defined.

(** C1, as stated, fails: the process dies after the ledger acknowledged
    the message and before the entry was removed; the pass of the
    restarted process reads the entry and submits it again, so the ledger
    takes the message twice. *)
Lemma syncMessages_resubmits_after_crash :
  let m := a_message "1" 100 in
  let w0 := set_disk_script [Fine; Dies] (quiet (Stored [m])) in
  let w1 := snd (syncMessages w0) in
  let w2 := snd (syncMessages w1) in
  fst (syncMessages w0) = Killed /\
  ledger w1 = [mkSubmission m true] /\
  durable_pending w1 = [m] /\
  times_accepted m (ledger w1) = 1%nat /\
  fst (syncMessages w1) = Resolved tt /\
  ledger w2 = [mkSubmission m true; mkSubmission m true] /\
  times_accepted m (ledger w2) = 2%nat.
Proof. cbv zeta. repeat split. Qed.

(** *** A failed submission and the entries after it *)

Lemma without_ids_nil l : without_ids [] l = l.
Proof.
  unfold without_ids. induction l as [|x l IH]; [reflexivity|].
  cbn [filter existsb negb]. f_equal. exact IH.
Qed.

Lemma without_ids_filter i ids l :
  without_ids ids (filter (fun m => negb (String.eqb (id m) i)) l) =
  without_ids (i :: ids) l.
Proof.
  unfold without_ids. induction l as [|x l IH]; simpl; auto.
  destruct (String.eqb (id x) i); simpl; rewrite IH; reflexivity.
Qed.

Lemma without_ids_one i l :
  without_ids [i] l = filter (fun m => negb (String.eqb (id m) i)) l.
Proof.
  unfold without_ids. apply filter_ext. intros x. simpl.
  rewrite orb_false_r. reflexivity.
Qed.

(** A turn on working storage: the message is submitted, and removed from
    the stored array when the ledger acknowledged it. *)
Lemma turn_calm m w :
  calm (disk_script w) = true ->
  survives (ledger_script w) = true ->
  let ok := is_fine (fst (next_fate (ledger_script w))) in
  fst (turn m w) = Resolved tt /\
  ledger (snd (turn m w)) = ledger w ++ [mkSubmission m ok] /\
  durable_pending (snd (turn m w)) =
    (if ok then without_ids [id m] (durable_pending w) else durable_pending w) /\
  calm (disk_script (snd (turn m w))) = true /\
  ledger_script (snd (turn m w)) = snd (next_fate (ledger_script w)).
Proof.
  intros Hd Hl. cbv zeta. unfold turn, try_catch, bind.
  rewrite sendMessageToContract_eq. cbv zeta.
  destruct (survives_next _ Hl) as [L1 L2].
  destruct (fst (next_fate (ledger_script w))) eqn:FL; try discriminate.
  - rewrite removePendingMessage_eq. cbv zeta.
    cbn [disk_script log_submission set_ledger_script].
    destruct (calm_next _ Hd) as [D1 D2].
    destruct (calm_next _ D2) as [D3 D4].
    rewrite D1, D3. simpl. repeat split; auto.
    rewrite without_ids_one. reflexivity.
  - simpl. repeat split; auto.
Qed.

Lemma syncLoop_calm rest : forall w,
  calm (disk_script w) = true ->
  survives (ledger_script w) = true ->
  exists subs,
    fst (syncLoop rest w) = Resolved tt /\
    ledger (snd (syncLoop rest w)) = ledger w ++ subs /\
    map sub_msg subs = rest /\
    map sub_ok subs =
      map is_fine (take_fates (List.length rest) (ledger_script w)) /\
    durable_pending (snd (syncLoop rest w)) =
      without_ids (map id (accepted subs)) (durable_pending w) /\
    calm (disk_script (snd (syncLoop rest w))) = true.
Proof.
  induction rest as [|m rest IH]; intros w Hd Hl.
  - exists []. simpl. rewrite app_nil_r, without_ids_nil. repeat split; auto.
  - rewrite syncLoop_cons. unfold bind.
    destruct (turn_calm m w Hd Hl) as [R [L [P [D' S']]]].
    destruct (survives_next _ Hl) as [_ Hl'].
    destruct (turn m w) as [o w1]. simpl in R, L, P, D', S'. subst o.
    rewrite <- S' in Hl'.
    destruct (IH w1 D' Hl') as [subs [R2 [L2 [M2 [O2 [P2 C2]]]]]].
    exists (mkSubmission m (is_fine (fst (next_fate (ledger_script w)))) :: subs).
    split; [exact R2|].
    split; [rewrite L2, L, <- app_assoc; reflexivity|].
    split; [simpl; rewrite M2; reflexivity|].
    split; [simpl; rewrite O2, S'; reflexivity|].
    split; [|exact C2].
    rewrite P2, P. unfold accepted. simpl.
    destruct (is_fine (fst (next_fate (ledger_script w)))); simpl.
    + rewrite without_ids_one, without_ids_filter. reflexivity.
    + reflexivity.
Qed.

(** C3, as the code has it. In [OfflineStorage.syncMessages] a failed
    submission does not stop the pass: on working storage every entry of
    the stored array is submitted, in order, each with the outcome the
    ledger gives it, and afterwards the store holds the entries whose id
    is not the id of an acknowledged one. *)
Theorem syncMessages_isolates_failures (w : World) :
  online w = true ->
  calm (disk_script w) = true ->
  survives (ledger_script w) = true ->
  exists subs,
    fst (syncMessages w) = Resolved tt /\
    ledger (snd (syncMessages w)) = ledger w ++ subs /\
    map sub_msg subs = durable_pending w /\
    map sub_ok subs =
      map is_fine
        (take_fates (List.length (durable_pending w)) (ledger_script w)) /\
    durable_pending (snd (syncMessages w)) =
      without_ids (map id (accepted subs)) (durable_pending w).
Proof.
  intros Ho Hd Hl. unfold syncMessages. rewrite Ho. simpl.
  unfold bind. rewrite getPendingMessages_eq. cbv zeta.
  destruct (calm_next _ Hd) as [D1 D2]. rewrite D1.
  set (w1 := set_disk_script (snd (next_fate (disk_script w))) w).
  destruct (syncLoop_calm (durable_pending w) w1 D2 Hl)
    as [subs [R [L [M [O [P C]]]]]].
  exists subs.
  destruct (syncLoop (durable_pending w) w1) as [o w2].
  simpl in R, L, P, C. subst o.
  unfold setItem_LAST_SYNC_KEY, disk_op.
  destruct (calm_next _ C) as [F _].
  destruct (next_fate (disk_script w2)) as [f r]. simpl in F. subst f.
  simpl. auto.
Qed.

Lemma syncMessages_isolates_failures_witness :
  let m1 := a_message "1" 100 in
  let m2 := a_message "2" 200 in
  let m3 := a_message "3" 300 in
  let w := set_ledger_script [Fine; Fails; Fine] (quiet (Stored [m1; m2; m3])) in
  online w = true /\
  calm (disk_script w) = true /\
  survives (ledger_script w) = true /\
  exists subs,
    ledger (snd (syncMessages w)) = ledger w ++ subs /\
    map sub_msg subs = [m1; m2; m3] /\
    map sub_ok subs = [true; false; true] /\
    durable_pending (snd (syncMessages w)) =
      without_ids (map id (accepted subs)) [m1; m2; m3].
Proof.
  cbv zeta. repeat (split; [reflexivity|]).
  destruct (syncMessages_isolates_failures
              (set_ledger_script [Fine; Fails; Fine]
                 (quiet (Stored [a_message "1" 100; a_message "2" 200;
                                 a_message "3" 300]))))
    as [subs [_ [L [M [O P]]]]]; try reflexivity.
  exists subs. auto.
Defined.

(** The three entries of the claim, run: the second submission throws,
    the first and the third are acknowledged and removed, the second
    stays. *)
Example syncMessages_second_of_three_fails :
  let m1 := a_message "1" 100 in
  let m2 := a_message "2" 200 in
  let m3 := a_message "3" 300 in
  let w := set_ledger_script [Fine; Fails; Fine] (quiet (Stored [m1; m2; m3])) in
  ledger (snd (syncMessages w)) =
    [mkSubmission m1 true; mkSubmission m2 false; mkSubmission m3 true] /\
  durable_pending (snd (syncMessages w)) = [m2].
Proof. cbv zeta. split; reflexivity. Qed.


Lemma storeMessage_durable_witness :
  let m := a_message "2" 200 in
  let w := quiet (Stored [a_message "1" 100]) in
  storeMessage m w = (Resolved tt, snd (storeMessage m w)) /\
  exists l,
    pendingMessages (snd (storeMessage m w)) = Stored (l ++ [m]) /\
    In m (durable_pending (snd (storeMessage m w))) /\
    l = [a_message "1" 100].
Proof.
  cbv zeta. split; [reflexivity|].
  destruct (storeMessage_durable (a_message "2" 200)
              (quiet (Stored [a_message "1" 100]))
              (snd (storeMessage (a_message "2" 200)
                      (quiet (Stored [a_message "1" 100])))))
    as [l [P [I [L _]]]]; [reflexivity|].
  exists l. split; [exact P|]. split; [exact I|]. apply L. reflexivity.
Defined.

Lemma storeMessage_write_failure_witness :
  let m := a_message "2" 200 in
  let w := set_disk_script [Fine; Fails] (quiet (Stored [a_message "1" 100])) in
  fst (next_fate (disk_script w)) <> Dies /\
  fst (next_fate (snd (next_fate (disk_script w)))) = Fails /\
  fst (storeMessage m w) = Rejected StorageError /\
  pendingMessages (snd (storeMessage m w)) = Stored [a_message "1" 100] /\
  ledger (snd (storeMessage m w)) = [].
Proof.
  cbv zeta. split; [discriminate|]. split; [reflexivity|].
  apply (storeMessage_write_failure (a_message "2" 200)
           (set_disk_script [Fine; Fails] (quiet (Stored [a_message "1" 100])))).
  - discriminate.
  - reflexivity.
Defined.

(** *** removePendingMessage *)

Lemma removePendingMessage_calm i w :
  calm (disk_script w) = true ->
  fst (removePendingMessage i w) = Resolved tt /\
  durable_pending (snd (removePendingMessage i w)) =
    filter (fun m => negb (String.eqb (id m) i)) (durable_pending w) /\
  ledger (snd (removePendingMessage i w)) = ledger w /\
  calm (disk_script (snd (removePendingMessage i w))) = true.
Proof.
  intros H. rewrite removePendingMessage_eq. cbv zeta.
  destruct (calm_next _ H) as [F1 C1]. destruct (calm_next _ C1) as [F2 C2].
  rewrite F1, F2. simpl. auto.
Qed.

(** On working storage [removePendingMessage] removes every entry with
    the given id and no other entry, keeps the order of the rest, never
    touches the ledger, and a second removal of the same id changes
    nothing. *)
Theorem removePendingMessage_removes_id (i : string) (w : World) :
  calm (disk_script w) = true ->
  let w1 := snd (removePendingMessage i w) in
  fst (removePendingMessage i w) = Resolved tt /\
  (forall m, In m (durable_pending w1) <->
             In m (durable_pending w) /\ id m <> i) /\
  durable_pending w1 =
    filter (fun m => negb (String.eqb (id m) i)) (durable_pending w) /\
  ledger w1 = ledger w /\
  durable_pending (snd (removePendingMessage i w1)) = durable_pending w1.
Proof.
  intros H. cbv zeta.
  destruct (removePendingMessage_calm i w H) as [R [D [L C]]].
  destruct (removePendingMessage_calm i _ C) as [_ [D2 _]].
  split; [exact R|]. split; [|split; [exact D|split; [exact L|]]].
  - intros m. rewrite D, filter_In. split.
    + intros [Hin Hne]. split; [exact Hin|].
      intros E. rewrite E, String.eqb_refl in Hne. discriminate.
    + intros [Hin Hne]. split; [exact Hin|].
      destruct (String.eqb_spec (id m) i); [contradiction|reflexivity].
  - rewrite D2, D. clear.
    induction (durable_pending w) as [|x l IH]; simpl; auto.
    destruct (String.eqb (id x) i) eqn:E; simpl; [exact IH|].
    rewrite E. simpl. rewrite IH. reflexivity.
Qed.

Lemma removePendingMessage_removes_id_witness :
  let w := quiet (Stored [a_message "1" 100; a_message "2" 200;
                          a_message "1" 300]) in
  calm (disk_script w) = true /\
  durable_pending (snd (removePendingMessage "1" w)) = [a_message "2" 200].
Proof.
  cbv zeta. split; [reflexivity|].
  destruct (removePendingMessage_removes_id "1"
              (quiet (Stored [a_message "1" 100; a_message "2" 200;
                              a_message "1" 300])))
    as [_ [_ [D _]]]; [reflexivity|].
  rewrite D. reflexivity.
Defined.

(** *** A pass on working storage *)

Lemma take_fates_calm n : forall script,
  calm script = true -> map is_fine (take_fates n script) = repeat true n.
Proof.
  induction n as [|n IH]; intros script H; [reflexivity|].
  destruct (calm_next _ H) as [F C]. simpl. rewrite F, (IH _ C). reflexivity.
Qed.

Lemma all_acknowledged subs : forall l,
  map sub_msg subs = l ->
  map sub_ok subs = repeat true (List.length l) ->
  subs = map MessageQueue.ack l.
Proof.
  induction subs as [|s subs IH]; intros l Hm Ho; subst l; [reflexivity|].
  simpl in *. injection Ho as Hs Ht.
  rewrite <- (IH (map sub_msg subs) eq_refl Ht).
  destruct s as [m ok]. simpl in *. subst ok. reflexivity.
Qed.

Lemma accepted_of_acks l : accepted (map MessageQueue.ack l) = l.
Proof.
  unfold accepted. induction l as [|m l IH]; simpl; [|rewrite IH]; reflexivity.
Qed.

Lemma without_ids_all ids l :
  (forall x, In x l -> In (id x) ids) -> without_ids ids l = [].
Proof.
  unfold without_ids. induction l as [|x l IH]; intros H; [reflexivity|].
  simpl. assert (E : existsb (String.eqb (id x)) ids = true).
  { apply existsb_exists. exists (id x). split.
    - apply H. left. reflexivity.
    - apply String.eqb_refl. }
  rewrite E. simpl. apply IH. intros y Hy. apply H. right. exact Hy.
Qed.

(** A whole pass on working storage: what it submits, what it leaves in
    the store and what it records. *)
Lemma syncMessages_calm_run w :
  online w = true ->
  calm (disk_script w) = true ->
  survives (ledger_script w) = true ->
  exists subs,
    fst (syncMessages w) = Resolved tt /\
    ledger (snd (syncMessages w)) = ledger w ++ subs /\
    map sub_msg subs = durable_pending w /\
    map sub_ok subs =
      map is_fine
        (take_fates (List.length (durable_pending w)) (ledger_script w)) /\
    durable_pending (snd (syncMessages w)) =
      without_ids (map id (accepted subs)) (durable_pending w) /\
    lastSync (snd (syncMessages w)) = Some (now w).
Proof.
  intros Ho Hd Hl. unfold syncMessages. rewrite Ho. simpl.
  unfold bind. rewrite getPendingMessages_eq. cbv zeta.
  destruct (calm_next _ Hd) as [D1 D2]. rewrite D1.
  set (w1 := set_disk_script (snd (next_fate (disk_script w))) w).
  destruct (syncLoop_calm (durable_pending w) w1 D2 Hl)
    as [subs [R [L [M [O [P C]]]]]].
  exists subs.
  destruct (syncLoop (durable_pending w) w1) as [o w2].
  simpl in R, L, P, C. subst o.
  unfold setItem_LAST_SYNC_KEY, disk_op.
  destruct (calm_next _ C) as [F _].
  destruct (next_fate (disk_script w2)) as [f r]. simpl in F. subst f.
  simpl. repeat split; auto.
Qed.

(** A pass finds nothing pending: the ledger hears nothing, whatever the
    storage and the connection do. *)
Lemma syncMessages_nothing_pending w :
  durable_pending w = [] ->
  ledger (snd (syncMessages w)) = ledger w.
Proof.
  intros H. unfold syncMessages. destruct (online w); [|reflexivity]. simpl.
  unfold bind. rewrite getPendingMessages_eq. cbv zeta. rewrite H.
  unfold setItem_LAST_SYNC_KEY, disk_op.
  destruct (fst (next_fate (disk_script w))); simpl; try reflexivity;
    destruct (next_fate (snd (next_fate (disk_script w)))) as [f r];
    destruct f; reflexivity.
Qed.

(** When the connection, the storage and the ledger all work, one pass
    empties the pending store: every stored entry is acknowledged once,
    in stored order, none is left, and the sync time is recorded. *)
Theorem syncMessages_drains (w : World) :
  online w = true ->
  calm (disk_script w) = true ->
  calm (ledger_script w) = true ->
  fst (syncMessages w) = Resolved tt /\
  ledger (snd (syncMessages w)) =
    ledger w ++ map MessageQueue.ack (durable_pending w) /\
  durable_pending (snd (syncMessages w)) = [] /\
  lastSync (snd (syncMessages w)) = Some (now w).
Proof.
  intros Ho Hd Hl.
  destruct (syncMessages_calm_run w Ho Hd (calm_survives _ Hl))
    as [subs [R [L [M [O [P S]]]]]].
  rewrite (take_fates_calm _ _ Hl) in O.
  pose proof (all_acknowledged subs _ M O) as E. subst subs.
  rewrite accepted_of_acks in P.
  split; [exact R|]. split; [exact L|]. split; [|exact S].
  rewrite P. apply without_ids_all. intros x Hx. apply in_map. exact Hx.
Qed.

Lemma syncMessages_drains_witness :
  let w := quiet (Stored [a_message "1" 100; a_message "2" 200]) in
  online w = true /\
  calm (disk_script w) = true /\
  calm (ledger_script w) = true /\
  ledger (snd (syncMessages w)) =
    [mkSubmission (a_message "1" 100) true;
     mkSubmission (a_message "2" 200) true] /\
  durable_pending (snd (syncMessages w)) = [].
Proof.
  cbv zeta. do 3 (split; [reflexivity|]).
  destruct (syncMessages_drains
              (quiet (Stored [a_message "1" 100; a_message "2" 200])))
    as [_ [L [D _]]]; try reflexivity.
  split; [exact L|exact D].
Defined.

(** [storeMessage] leaves the ledger, its script and the connection as
    they are. *)
Lemma storeMessage_frame m w :
  ledger (snd (storeMessage m w)) = ledger w /\
  ledger_script (snd (storeMessage m w)) = ledger_script w /\
  online (snd (storeMessage m w)) = online w.
Proof.
  rewrite storeMessage_eq. cbv zeta.
  destruct (fst (next_fate (disk_script w)));
    destruct (fst (next_fate (snd (next_fate (disk_script w)))));
    simpl; auto.
Qed.

Lemma storeMessages_frame ms : forall w,
  ledger (snd (storeMessages ms w)) = ledger w /\
  ledger_script (snd (storeMessages ms w)) = ledger_script w /\
  online (snd (storeMessages ms w)) = online w.
Proof.
  induction ms as [|m ms IH]; intros w; [simpl; auto|].
  simpl. unfold bind.
  destruct (storeMessage_frame m w) as [L [S O]].
  destruct (storeMessage m w) as [[u|e|] w1]; simpl in L, S, O; simpl; auto.
  destruct (IH w1) as [L1 [S1 O1]]. rewrite L1, S1, O1. auto.
Qed.

(** Store, then sync. When everything works, after any run of
    [storeMessage] calls one pass delivers the entries that were pending
    before and the new ones, each once, in the order of storing, and
    empties the store; a second pass submits nothing more. *)
Theorem store_then_sync_delivers_once (ms : list Message) (w : World) :
  online w = true ->
  calm (disk_script w) = true ->
  calm (ledger_script w) = true ->
  let w1 := snd (storeMessages ms w) in
  let w2 := snd (syncMessages w1) in
  let w3 := snd (syncMessages w2) in
  ledger w2 = ledger w ++ map MessageQueue.ack (durable_pending w ++ ms) /\
  durable_pending w2 = [] /\
  ledger w3 = ledger w2.
Proof.
  intros Ho Hd Hl. cbv zeta.
  destruct (storeMessages_calm ms w Hd) as [_ [D C]].
  destruct (storeMessages_frame ms w) as [L [S O]].
  set (w1 := snd (storeMessages ms w)) in *.
  assert (Ho1 : online w1 = true) by (rewrite O; exact Ho).
  assert (Hl1 : survives (ledger_script w1) = true)
    by (rewrite S; apply calm_survives; exact Hl).
  destruct (syncMessages_calm_run w1 Ho1 C Hl1)
    as [subs [_ [L2 [M [Ok [P _]]]]]].
  rewrite S, (take_fates_calm _ _ Hl) in Ok.
  pose proof (all_acknowledged subs _ M Ok) as E. subst subs.
  rewrite accepted_of_acks in P.
  assert (P2 : durable_pending (snd (syncMessages w1)) = []).
  { rewrite P. apply without_ids_all. intros x Hx. apply in_map. exact Hx. }
  split; [rewrite L2, L, D; reflexivity|]. split; [exact P2|].
  apply syncMessages_nothing_pending. exact P2.
Qed.

Lemma store_then_sync_delivers_once_witness :
  let w := quiet Absent in
  let ms := [a_message "1" 200; a_message "2" 100] in
  online w = true /\
  calm (disk_script w) = true /\
  calm (ledger_script w) = true /\
  ledger (snd (syncMessages (snd (storeMessages ms w)))) =
    [mkSubmission (a_message "1" 200) true;
     mkSubmission (a_message "2" 100) true] /\
  durable_pending (snd (syncMessages (snd (storeMessages ms w)))) = [].
Proof.
  cbv zeta. do 3 (split; [reflexivity|]).
  destruct (store_then_sync_delivers_once
              [a_message "1" 200; a_message "2" 100] (quiet Absent))
    as [L [D _]]; try reflexivity.
  split; [exact L|exact D].
Defined.

(** [removePendingMessage] goes by id alone. When two stored entries share
    an id and the ledger acknowledges the first and rejects the second,
    the pass removes both: the second is gone from the store without
    having been delivered. *)
Theorem syncMessages_shared_id_drops_unsent (m1 m2 : Message) (w : World) :
  pendingMessages w = Stored [m1; m2] ->
  id m1 = id m2 ->
  online w = true ->
  calm (disk_script w) = true ->
  survives (ledger_script w) = true ->
  take_fates 2 (ledger_script w) = [Fine; Fails] ->
  ledger (snd (syncMessages w)) =
    ledger w ++ [mkSubmission m1 true; mkSubmission m2 false] /\
  durable_pending (snd (syncMessages w)) = [].
Proof.
  intros Hp Hid Ho Hd Hl Hf.
  destruct (syncMessages_calm_run w Ho Hd Hl) as [subs [_ [L [M [O [P _]]]]]].
  assert (Hdp : durable_pending w = [m1; m2])
    by (unfold durable_pending; rewrite Hp; reflexivity).
  rewrite Hdp in M, O, P.
  change (List.length [m1; m2]) with 2%nat in O. rewrite Hf in O.
  destruct subs as [|[a oa] [|[b ob] [|c subs]]]; try discriminate.
  simpl in M, O. inversion M; inversion O; subst.
  split; [exact L|].
  rewrite P. unfold accepted, without_ids. simpl.
  rewrite <- Hid, String.eqb_refl. reflexivity.
Qed.

Lemma syncMessages_shared_id_drops_unsent_witness :
  let m1 := a_message "1" 100 in
  let m2 := a_message "1" 200 in
  let w := set_ledger_script [Fine; Fails] (quiet (Stored [m1; m2])) in
  pendingMessages w = Stored [m1; m2] /\
  id m1 = id m2 /\
  online w = true /\
  calm (disk_script w) = true /\
  survives (ledger_script w) = true /\
  take_fates 2 (ledger_script w) = [Fine; Fails] /\
  ledger (snd (syncMessages w)) =
    [mkSubmission m1 true; mkSubmission m2 false] /\
  durable_pending (snd (syncMessages w)) = [].
Proof.
  cbv zeta. do 6 (split; [reflexivity|]).
  apply (syncMessages_shared_id_drops_unsent
           (a_message "1" 100) (a_message "1" 200)
           (set_ledger_script [Fine; Fails]
              (quiet (Stored [a_message "1" 100; a_message "1" 200]))));
    reflexivity.
Defined.

End OfflineStorageFacts.

Module MessageQueueFacts.

Import MessageQueue.

(** *** One pass, nothing interleaved *)

(** [saveQueue] touches the stored copy and the fault script only. *)
Lemma saveQueue_of_frame snapshot w :
  fst (saveQueue_of snapshot w) = Resolved tt /\
  queue (snd (saveQueue_of snapshot w)) = queue w /\
  ledger (snd (saveQueue_of snapshot w)) = ledger w /\
  isProcessing (snd (saveQueue_of snapshot w)) = isProcessing w /\
  isConnected (snd (saveQueue_of snapshot w)) = isConnected w /\
  send_faults (snd (saveQueue_of snapshot w)) = send_faults w.
Proof.
  unfold saveQueue_of, try_catch, setItem_messageQueue.
  destruct (next_fault (disk_faults w)) as [[|] rest]; simpl; auto 10.
Qed.

(** One turn of the loop on a queue that is not empty. *)
Lemma processLoop_turn turns m q w :
  queue w = m :: q ->
  processLoop (S turns) w =
  let w0 := set_send_faults (snd (next_fault (send_faults w))) w in
  if fst (next_fault (send_faults w))
  then (Resolved tt, log_submission m false w0)
  else processLoop turns
         (snd (saveQueue (set_queue q (log_submission m true w0)))).
Proof.
  intros Hq. cbn [processLoop]. rewrite Hq. cbv zeta.
  unfold bind at 1. unfold try_catch at 1. unfold bind at 1.
  unfold sendMessage.
  destruct (next_fault (send_faults w)) as [[|] rest] eqn:E; simpl fst; simpl snd.
  - reflexivity.
  - cbv beta iota. unfold bind at 1. unfold shift.
    cbn [queue log_submission set_send_faults]. rewrite Hq. cbn [tl].
    unfold bind at 1.
    destruct (saveQueue_of_frame
                (queue (set_queue q (log_submission m true
                                       (set_send_faults rest w))))
                (set_queue q (log_submission m true (set_send_faults rest w))))
      as [R _].
    unfold saveQueue.
    destruct (saveQueue_of _ _) as [o w3]. simpl in R. subst o.
    reflexivity.
Qed.

Lemma saveQueue_frame w :
  queue (snd (saveQueue w)) = queue w /\
  ledger (snd (saveQueue w)) = ledger w /\
  isProcessing (snd (saveQueue w)) = isProcessing w /\
  isConnected (snd (saveQueue w)) = isConnected w /\
  send_faults (snd (saveQueue w)) = send_faults w.
Proof. unfold saveQueue. apply saveQueue_of_frame. Qed.

(** The loop submits the entries from the head of the queue and shifts
    each acknowledged one; it ends with the queue empty or at the first
    submission that throws, which stays at the head. *)
Lemma processLoop_shape turns : forall w,
  (List.length (queue w) <= turns)%nat ->
  exists k,
    fst (processLoop turns w) = Resolved tt /\
    queue (snd (processLoop turns w)) = skipn k (queue w) /\
    ((ledger (snd (processLoop turns w)) =
        ledger w ++ map ack (firstn k (queue w)) /\
      queue (snd (processLoop turns w)) = []) \/
     (exists m,
        nth_error (queue w) k = Some m /\
        ledger (snd (processLoop turns w)) =
          ledger w ++ map ack (firstn k (queue w)) ++ [mkSubmission m false])) /\
    isConnected (snd (processLoop turns w)) = isConnected w.
Proof.
  induction turns as [|turns IH]; intros w Hlen.
  - exists 0%nat. destruct (queue w) eqn:Hq; [|simpl in Hlen; lia].
    simpl. rewrite Hq. simpl. rewrite app_nil_r. repeat split; auto.
  - destruct (queue w) as [|m q] eqn:Hq.
    + exists 0%nat. cbn [processLoop]. rewrite Hq. simpl. rewrite Hq.
      rewrite app_nil_r. repeat split; auto.
    + rewrite (processLoop_turn turns m q w Hq). cbv zeta.
      destruct (fst (next_fault (send_faults w))).
      * exists 0%nat. simpl. rewrite Hq. repeat split; auto.
        right. exists m. auto.
      * set (w0 := set_send_faults (snd (next_fault (send_faults w))) w).
        set (w2 := set_queue q (log_submission m true w0)).
        destruct (saveQueue_frame w2) as [Q [L [_ [C _]]]].
        simpl in Hlen.
        assert (Hlen3 : (List.length (queue (snd (saveQueue w2))) <= turns)%nat)
          by (rewrite Q; simpl; lia).
        destruct (IH (snd (saveQueue w2)) Hlen3) as [k [R [Qk [Sh Ck]]]].
        exists (S k). rewrite Q in Qk, Sh. rewrite L in Sh. simpl in Qk, Sh.
        split; [exact R|]. split; [exact Qk|].
        split; [|rewrite Ck, C; reflexivity].
        destruct Sh as [[Sh E] | [m' [N Sh]]].
        -- left. split; [|exact E]. rewrite Sh, <- app_assoc. reflexivity.
        -- right. exists m'. split; [exact N|].
           rewrite Sh, <- app_assoc. reflexivity.
Qed.

Lemma accepted_app l1 l2 : accepted (l1 ++ l2) = accepted l1 ++ accepted l2.
Proof. unfold accepted. rewrite filter_app, map_app. reflexivity. Qed.

Lemma accepted_acks l : accepted (map ack l) = l.
Proof.
  unfold accepted. induction l as [|m l IH]; simpl; [|rewrite IH]; reflexivity.
Qed.


(** What [acknowledged_prefix] counts: no more entries than are queued,
    no fault among the submissions it counts, and a fault right after
    them unless it counts the whole queue. *)
Lemma acknowledged_prefix_spec faults q :
  let k := acknowledged_prefix faults q in
  (k <= List.length q)%nat /\
  (forall i, (i < k)%nat -> nth i faults false = false) /\
  ((k < List.length q)%nat -> nth k faults false = true).
Proof.
  revert faults. induction q as [|m q IH]; intros faults; cbv zeta.
  - simpl. repeat split; intros; lia.
  - cbn [acknowledged_prefix].
    destruct faults as [|[|] rest]; cbn [next_fault fst snd].
    + destruct (IH []) as [H1 [H2 H3]]. simpl.
      split; [lia|]. split.
      * intros i _. destruct i; reflexivity.
      * intros Hk.
        assert (Hk' : (acknowledged_prefix [] q < List.length q)%nat) by lia.
        specialize (H3 Hk').
        destruct (acknowledged_prefix [] q); simpl in H3; discriminate.
    + simpl. split; [lia|]. split; [intros; lia|reflexivity].
    + destruct (IH rest) as [H1 [H2 H3]]. simpl.
      split; [lia|]. split.
      * intros i Hi. destruct i; [reflexivity|]. apply H2. lia.
      * intros Hk. apply H3. lia.
Qed.


(** C3, as stated, fails on [MessageQueue.processQueue]: of three queued
    entries whose second submission throws, the third is not submitted in
    that pass. *)
Lemma processQueue_stops_at_failure :
  let m1 := OfflineStorage.a_message "1" 100 in
  let m2 := OfflineStorage.a_message "2" 200 in
  let m3 := OfflineStorage.a_message "3" 300 in
  let w := set_send_faults [false; true; false] (idle [m1; m2; m3]) in
  ledger (snd (processQueue w)) = [mkSubmission m1 true; mkSubmission m2 false] /\
  queue (snd (processQueue w)) = [m2; m3] /\
  existsb (Message_eqb m3) (map sub_msg (ledger (snd (processQueue w)))) = false.
Proof. cbv zeta. repeat split. Qed.

(** *** addToQueue and a failed write *)

Lemma addToQueue_resolves m w : fst (addToQueue m w) = Resolved tt.
Proof.
  unfold addToQueue, bind, push.
  destruct (saveQueue_of_frame (queue (set_queue (queue w ++ [m]) w))
              (set_queue (queue w ++ [m]) w)) as [R _].
  unfold saveQueue. destruct (saveQueue_of _ _) as [o w1].
  simpl in R. subst o. reflexivity.
Qed.

(** C6. The input on which the write failure is lost: every
    [AsyncStorage.setItem] of [MessageQueue.addToQueue] rejects. The call
    resolves all the same (it resolves on every input), nothing is stored
    under ['messageQueue'], and the message is submitted to the ledger. *)
Theorem addToQueue_swallows_write_failure :
  (forall m w, fst (addToQueue m w) = Resolved tt) /\
  (let m := OfflineStorage.a_message "1" 100 in
   let w := set_disk_faults [true; true] (idle []) in
   fst (setItem_messageQueue [m] w) = Rejected StorageError /\
   fst (addToQueue m w) = Resolved tt /\
   messageQueue (snd (addToQueue m w)) = None /\
   ledger (snd (addToQueue m w)) = [ack m]).
Proof.
  split; [exact addToQueue_resolves|]. cbv zeta. repeat split.
Qed.

(** *** The processing flag *)

(** A trigger that finds the flag raised returns at once and changes
    nothing. *)
Lemma processQueue_coalesced_when_flag_raised w :
  isProcessing w = true ->
  call_processQueue w = (Done, w) /\ processQueue w = (Resolved tt, w).
Proof.
  intros H. unfold call_processQueue, processQueue. rewrite H. auto.
Qed.

(** The loop of a pass run alone, from its test, is [processLoop]
    followed by lowering the flag. *)
Lemma run_alone_loop turns : forall w fuel,
  (List.length (queue w) <= turns)%nat ->
  (2 * List.length (queue w) <= fuel)%nat ->
  run_alone fuel (fst (loop_head w)) (snd (loop_head w)) =
    (Done, set_isProcessing false (snd (processLoop turns w))).
Proof.
  induction turns as [|turns IH]; intros w fuel Hlen Hfuel.
  - destruct (queue w) eqn:Hq; [|simpl in Hlen; lia].
    unfold loop_head. rewrite Hq. simpl.
    destruct fuel; reflexivity.
  - destruct (queue w) as [|m q] eqn:Hq.
    + unfold loop_head. rewrite Hq. cbn [processLoop]. rewrite Hq.
      destruct fuel; reflexivity.
    + rewrite (processLoop_turn turns m q w Hq). cbv zeta.
      unfold loop_head. rewrite Hq. simpl in Hlen, Hfuel.
      destruct fuel as [|[|fuel]]; try lia.
      cbn [fst snd run_alone resume]. unfold sendMessage.
      destruct (next_fault (send_faults w)) as [[|] rest]; cbn [fst snd].
      * reflexivity.
      * unfold shift. cbn [fst snd queue log_submission set_send_faults set_queue].
        rewrite Hq. cbn [tl].
        set (w2 := set_queue q (log_submission m true (set_send_faults rest w))).
        cbn [resume].
        change (saveQueue_of q w2) with (saveQueue w2).
        destruct (saveQueue_frame w2) as [Q _].
        specialize (IH (snd (saveQueue w2)) fuel).
        rewrite Q in IH. simpl in IH.
        destruct (loop_head (snd (saveQueue w2))) as [t w3] eqn:E.
        simpl in IH. apply IH; lia.
Qed.

(** A call of [processQueue] resumed alone until it is done does what
    [processQueue] does. *)
Lemma run_alone_processQueue w fuel :
  (2 * List.length (queue w) + 1 <= fuel)%nat ->
  run_alone fuel (fst (call_processQueue w)) (snd (call_processQueue w)) =
    (Done, snd (processQueue w)).
Proof.
  intros Hfuel. unfold call_processQueue, processQueue.
  destruct (isProcessing w || (List.length (queue w) =? 0)%nat).
  - destruct fuel; reflexivity.
  - destruct fuel as [|fuel]; [lia|]. cbn [fst snd run_alone resume].
    destruct (isConnected w); cbn [negb].
    + unfold bind, assign_isProcessing.
      pose proof (run_alone_loop (List.length (queue w))
                    (set_isProcessing true w) fuel) as H.
      simpl in H.
      destruct (loop_head (set_isProcessing true w)) as [t w1].
      simpl in H. rewrite H by lia.
      destruct (processLoop_shape (List.length (queue w))
                  (set_isProcessing true w)) as [k [R _]]; [simpl; lia|].
      destruct (processLoop (List.length (queue w)) (set_isProcessing true w))
        as [o w2]. simpl in R. subst o. reflexivity.
    + destruct fuel; reflexivity.
Qed.

(** C8. The schedule on which two sync passes run at once. Both calls of
    [processQueue] read the flag before either has raised it, because the
    flag is raised only after the awaited connectivity check. Both passes
    are then inside the loop, both submit the head entry, and both shift:
    the first message reaches the ledger twice and the second never. *)
Theorem two_passes_run_at_once :
  let m1 := OfflineStorage.a_message "1" 100 in
  let m2 := OfflineStorage.a_message "2" 200 in
  let start := mkSystem (idle []) [] in
  let after k := play (firstn k (racing_schedule m1 m2)) start in
  (* the second trigger arrives while the first pass is under way *)
  tasks (after 3%nat) = [PassAtFetch; AddAtSave [m1; m2]] /\
  isProcessing (world (after 3%nat)) = false /\
  (* and is not coalesced *)
  tasks (after 4%nat) = [PassAtFetch; PassAtFetch] /\
  tasks (after 6%nat) = [PassAtSend m1; PassAtSend m1] /\
  passes_running (after 6%nat) = 2%nat /\
  (* both passes run to their end *)
  tasks (after 10%nat) = [Done; Done] /\
  ledger (world (after 10%nat)) = [ack m1; ack m1] /\
  queue (world (after 10%nat)) = [] /\
  times_accepted m1 (ledger (world (after 10%nat))) = 2%nat /\
  times_accepted m2 (ledger (world (after 10%nat))) = 0%nat.
Proof. cbv zeta. repeat split. Qed.

(** *** More on one pass and on addToQueue *)

(** [processQueue] leaves the flag as it found it: the pass that raised
    it lowers it again, also when a submission throws, and a call that is
    turned away does not touch it. *)
Theorem processQueue_restores_flag (w : World) :
  isProcessing (snd (processQueue w)) = isProcessing w.
Proof.
  unfold processQueue.
  destruct (isProcessing w) eqn:F; simpl; [exact F|].
  destruct (List.length (queue w) =? 0)%nat; [simpl; exact F|].
  destruct (isConnected w); simpl; [|exact F].
  unfold bind, assign_isProcessing.
  destruct (processLoop_shape (List.length (queue w)) (set_isProcessing true w))
    as [k [R _]]; [simpl; lia|].
  destruct (processLoop (List.length (queue w)) (set_isProcessing true w))
    as [o w1]. simpl in R. subst o. reflexivity.
Qed.

(** A pass neither loses nor repeats nor reorders a message: what the
    ledger took, followed by what is still queued, stays the same list. *)
Lemma processQueue_conserves w :
  accepted (ledger (snd (processQueue w))) ++ queue (snd (processQueue w)) =
  accepted (ledger w) ++ queue w.
Proof.
  unfold processQueue.
  destruct (isProcessing w || (List.length (queue w) =? 0)%nat);
    [reflexivity|].
  destruct (isConnected w); simpl; [|reflexivity].
  unfold bind, assign_isProcessing.
  destruct (processLoop_shape (List.length (queue w)) (set_isProcessing true w))
    as [k [R [Q [Sh _]]]]; [simpl; lia|].
  destruct (processLoop (List.length (queue w)) (set_isProcessing true w))
    as [o w1]. simpl in R, Q, Sh. subst o. simpl.
  destruct Sh as [[Sh _] | [m [_ Sh]]]; rewrite Sh, Q.
  - rewrite accepted_app, accepted_acks, <- app_assoc, firstn_skipn.
    reflexivity.
  - rewrite !accepted_app, accepted_acks. simpl.
    rewrite app_nil_r, <- app_assoc, firstn_skipn. reflexivity.
Qed.

(** What [addToQueue] has done by the time it calls [processQueue]. *)
Lemma addToQueue_eq m w :
  addToQueue m w =
  (Resolved tt,
   snd (processQueue (snd (saveQueue (set_queue (queue w ++ [m]) w))))).
Proof.
  unfold addToQueue, bind, push.
  destruct (saveQueue_of_frame (queue (set_queue (queue w ++ [m]) w))
              (set_queue (queue w ++ [m]) w)) as [R _].
  unfold saveQueue. destruct (saveQueue_of _ _) as [o w1].
  simpl in R. subst o. reflexivity.
Qed.

(** With calls of [addToQueue] one after the other and no pass
    interleaved, every message ends up in exactly one place, in the order
    of the calls: the messages the ledger took, followed by the queue, are
    the same list as before with the new message at its end. *)
Theorem addToQueue_conserves (m : QueuedMessage) (w : World) :
  accepted (ledger (snd (addToQueue m w))) ++ queue (snd (addToQueue m w)) =
  (accepted (ledger w) ++ queue w) ++ [m].
Proof.
  rewrite addToQueue_eq. cbn [snd]. rewrite processQueue_conserves.
  destruct (saveQueue_frame (set_queue (queue w ++ [m]) w)) as [Q [L _]].
  rewrite Q, L. simpl. rewrite app_assoc. reflexivity.
Qed.

(** While the device is offline, or while the flag is raised, [addToQueue]
    only appends: the message waits at the end of the queue and nothing
    is submitted. *)
Theorem addToQueue_held_back (m : QueuedMessage) (w : World) :
  isConnected w = false \/ isProcessing w = true ->
  queue (snd (addToQueue m w)) = queue w ++ [m] /\
  ledger (snd (addToQueue m w)) = ledger w /\
  isProcessing (snd (addToQueue m w)) = isProcessing w.
Proof.
  intros H. rewrite addToQueue_eq. cbn [snd].
  destruct (saveQueue_frame (set_queue (queue w ++ [m]) w))
    as [Q [L [P [C _]]]].
  set (w1 := snd (saveQueue (set_queue (queue w ++ [m]) w))) in *.
  simpl in Q, L, P, C.
  assert (E : processQueue w1 = (Resolved tt, w1)).
  { unfold processQueue. rewrite P, C.
    destruct H as [H|H]; rewrite H.
    - destruct (isProcessing w || (List.length (queue w1) =? 0)%nat);
        reflexivity.
    - reflexivity. }
  rewrite E. simpl. auto.
Qed.

Lemma addToQueue_held_back_witness :
  let m := OfflineStorage.a_message "2" 200 in
  let w := mkWorld [OfflineStorage.a_message "1" 100] false None [] false [] [] in
  (isConnected w = false \/ isProcessing w = true) /\
  queue (snd (addToQueue m w)) = [OfflineStorage.a_message "1" 100; m] /\
  ledger (snd (addToQueue m w)) = [].
Proof.
  cbv zeta. split; [left; reflexivity|].
  destruct (addToQueue_held_back (OfflineStorage.a_message "2" 200)
              (mkWorld [OfflineStorage.a_message "1" 100] false None [] false [] []))
    as [Q [L _]]; [left; reflexivity|].
  split; [exact Q|exact L].
Defined.

Lemma next_fault_quiet script :
  forallb negb script = true ->
  fst (next_fault script) = false /\
  forallb negb (snd (next_fault script)) = true.
Proof.
  destruct script as [|b rest]; simpl; auto.
  intros H. apply andb_true_iff in H. destruct H as [H1 H2].
  destruct b; simpl in *; auto; discriminate.
Qed.

(** The loop when no submission throws: the whole queue is acknowledged
    in order and nothing is left. *)
Lemma processLoop_no_faults turns : forall w,
  (List.length (queue w) <= turns)%nat ->
  forallb negb (send_faults w) = true ->
  queue (snd (processLoop turns w)) = [] /\
  ledger (snd (processLoop turns w)) = ledger w ++ map ack (queue w).
Proof.
  induction turns as [|turns IH]; intros w Hlen Hq.
  - destruct (queue w) eqn:E; [|simpl in Hlen; lia].
    simpl. rewrite E, app_nil_r. auto.
  - destruct (queue w) as [|m q] eqn:E.
    + cbn [processLoop]. rewrite E. simpl. rewrite E, app_nil_r. auto.
    + rewrite (processLoop_turn turns m q w E). cbv zeta.
      destruct (next_fault_quiet _ Hq) as [F Hq'].
      rewrite F.
      set (w2 := set_queue q (log_submission m true
                   (set_send_faults (snd (next_fault (send_faults w))) w))).
      destruct (saveQueue_frame w2) as [Q [L [_ [_ S]]]].
      simpl in Hlen.
      destruct (IH (snd (saveQueue w2))) as [Q' L'].
      * rewrite Q. simpl. lia.
      * rewrite S. exact Hq'.
      * split; [exact Q'|]. rewrite L', L, Q. simpl.
        rewrite <- app_assoc. reflexivity.
Qed.



(** *** The stored copy of the queue *)

Lemma saveQueue_quiet w :
  forallb negb (disk_faults w) = true ->
  messageQueue (snd (saveQueue w)) = Some (queue w) /\
  forallb negb (disk_faults (snd (saveQueue w))) = true.
Proof.
  intros H. unfold saveQueue, saveQueue_of, try_catch, setItem_messageQueue.
  destruct (next_fault_quiet _ H) as [F H'].
  destruct (next_fault (disk_faults w)) as [b rest]. simpl in F, H'. subst b.
  simpl. auto.
Qed.

Lemma processLoop_mirrors turns : forall w,
  forallb negb (disk_faults w) = true ->
  messageQueue w = Some (queue w) ->
  messageQueue (snd (processLoop turns w)) =
    Some (queue (snd (processLoop turns w))).
Proof.
  induction turns as [|turns IH]; intros w Hd Hm; [exact Hm|].
  destruct (queue w) as [|m q] eqn:E.
  - cbn [processLoop]. rewrite E. simpl. rewrite E. exact Hm.
  - rewrite (processLoop_turn turns m q w E). cbv zeta.
    destruct (fst (next_fault (send_faults w))).
    + simpl. rewrite E. exact Hm.
    + set (w2 := set_queue q (log_submission m true
                   (set_send_faults (snd (next_fault (send_faults w))) w))).
      destruct (saveQueue_quiet w2 Hd) as [M D].
      destruct (saveQueue_frame w2) as [Q _].
      apply IH; [exact D|]. rewrite M, Q. reflexivity.
Qed.

(** On working storage the copy under ['messageQueue'] keeps up with the
    queue: when [addToQueue] and the pass it starts are done, the stored
    array is the in-memory queue. *)
Theorem addToQueue_mirrors (m : QueuedMessage) (w : World) :
  forallb negb (disk_faults w) = true ->
  messageQueue (snd (addToQueue m w)) = Some (queue (snd (addToQueue m w))).
Proof.
  intros Hd. rewrite addToQueue_eq. cbn [snd].
  destruct (saveQueue_quiet (set_queue (queue w ++ [m]) w) Hd) as [M D].
  destruct (saveQueue_frame (set_queue (queue w ++ [m]) w)) as [Q _].
  set (w1 := snd (saveQueue (set_queue (queue w ++ [m]) w))) in *.
  assert (Hm : messageQueue w1 = Some (queue w1)) by (rewrite M, Q; reflexivity).
  unfold processQueue.
  destruct (isProcessing w1 || (List.length (queue w1) =? 0)%nat);
    [exact Hm|].
  destruct (isConnected w1); simpl; [|exact Hm].
  unfold bind, assign_isProcessing.
  pose proof (processLoop_mirrors (List.length (queue w1))
                (set_isProcessing true w1) D Hm) as H.
  destruct (processLoop_shape (List.length (queue w1))
              (set_isProcessing true w1)) as [k [R _]]; [simpl; lia|].
  destruct (processLoop (List.length (queue w1)) (set_isProcessing true w1))
    as [o w2]. simpl in R, H. subst o. simpl. exact H.
Qed.

Lemma addToQueue_mirrors_witness :
  let m := OfflineStorage.a_message "3" 300 in
  let w := set_send_faults [false; true]
             (idle [OfflineStorage.a_message "1" 100;
                    OfflineStorage.a_message "2" 200]) in
  forallb negb (disk_faults w) = true /\
  queue (snd (addToQueue m w)) = [OfflineStorage.a_message "2" 200; m] /\
  messageQueue (snd (addToQueue m w)) =
    Some [OfflineStorage.a_message "2" 200; m].
Proof.
  cbv zeta. split; [reflexivity|]. split; [reflexivity|].
  rewrite (addToQueue_mirrors (OfflineStorage.a_message "3" 300)
             (set_send_faults [false; true]
                (idle [OfflineStorage.a_message "1" 100;
                       OfflineStorage.a_message "2" 200]))); reflexivity.
Defined.

(** *** Whatever the schedule *)









(** *** A failed submission is retried by the next pass *)

(** A pass on an idle, connected queue whose ledger takes every
    submission: everything queued is acknowledged in order. *)
Lemma processQueue_no_faults w :
  isConnected w = true ->
  isProcessing w = false ->
  forallb negb (send_faults w) = true ->
  queue (snd (processQueue w)) = [] /\
  ledger (snd (processQueue w)) = ledger w ++ map ack (queue w).
Proof.
  intros Hc Hp Hs. unfold processQueue. rewrite Hp, Hc.
  cbn [orb negb].
  destruct (Nat.eqb_spec (List.length (queue w)) 0) as [E|E].
  - apply length_zero_iff_nil in E. simpl. rewrite E, app_nil_r. auto.
  - unfold bind, assign_isProcessing.
    destruct (processLoop_no_faults (List.length (queue w))
                (set_isProcessing true w)) as [Q L].
    + simpl. lia.
    + exact Hs.
    + destruct (processLoop_shape (List.length (queue w))
                  (set_isProcessing true w)) as [k [R _]]; [simpl; lia|].
      destruct (processLoop (List.length (queue w)) (set_isProcessing true w))
        as [o w1]. simpl in R, Q, L. subst o. simpl. auto.
Qed.

(** A message whose submission threw stays queued and goes first in the
    next pass: when the head submission of one pass throws and the
    ledger then takes everything, the second pass acknowledges that
    message first and the rest after it, in queue order, and empties the
    queue. *)
Theorem processQueue_retries_failed_head (m : QueuedMessage)
    (q : list QueuedMessage) (w : World) (faults : list bool) :
  queue w = m :: q ->
  isConnected w = true ->
  isProcessing w = false ->
  send_faults w = true :: faults ->
  forallb negb faults = true ->
  let w1 := snd (processQueue w) in
  let w2 := snd (processQueue w1) in
  queue w1 = m :: q /\
  ledger w1 = ledger w ++ [mkSubmission m false] /\
  ledger w2 = ledger w ++ [mkSubmission m false] ++ map ack (m :: q) /\
  queue w2 = [].
Proof.
  intros Hq Hc Hp Hs Hf. cbv zeta.
  assert (E : processQueue w =
              (Resolved tt,
               set_isProcessing false
                 (log_submission m false
                    (set_send_faults faults (set_isProcessing true w))))).
  { unfold processQueue. rewrite Hp, Hc, Hq.
    cbn [orb negb List.length Nat.eqb].
    unfold bind, assign_isProcessing.
    rewrite (processLoop_turn (List.length q) m q (set_isProcessing true w))
      by exact Hq.
    cbv zeta. cbn [send_faults set_isProcessing]. rewrite Hs. reflexivity. }
  rewrite E. cbn [snd].
  set (w1 := set_isProcessing false _).
  destruct (processQueue_no_faults w1) as [Q L]; try reflexivity.
  - exact Hc.
  - exact Hf.
  - subst w1. simpl in *. rewrite Hq in *. rewrite L, <- app_assoc. auto.
Qed.

Lemma processQueue_retries_failed_head_witness :
  let m1 := OfflineStorage.a_message "1" 100 in
  let m2 := OfflineStorage.a_message "2" 200 in
  let w := set_send_faults [true] (idle [m1; m2]) in
  queue w = m1 :: [m2] /\
  isConnected w = true /\
  isProcessing w = false /\
  send_faults w = true :: [] /\
  ledger (snd (processQueue (snd (processQueue w)))) =
    [mkSubmission m1 false; ack m1; ack m2] /\
  queue (snd (processQueue (snd (processQueue w)))) = [].
Proof.
  cbv zeta. do 4 (split; [reflexivity|]).
  destruct (processQueue_retries_failed_head
              (OfflineStorage.a_message "1" 100)
              [OfflineStorage.a_message "2" 200]
              (set_send_faults [true]
                 (idle [OfflineStorage.a_message "1" 100;
                        OfflineStorage.a_message "2" 200])) [])
    as [_ [_ [L Q]]]; try reflexivity.
  split; [exact L|exact Q].
Defined.

End MessageQueueFacts.

Module ErrorHandlingFacts.

Import ErrorHandling.

(** One turn of the loop, by how the attempt settles. *)
Lemma retryLoop_turn {T} cfg (operation : Operation T) remaining attempt lastError w :
  retryLoop cfg operation (S remaining) attempt lastError w =
  let w1 := mkWorld (S (calls w)) (slept w) (reported w) in
  match race (operation (calls w)) (timeoutMs cfg) "retryableOperation" with
  | Resolved v => (Resolved (inl v), w1)
  | Rejected error =>
      if negb (shouldRetry cfg error) then (Resolved (inr error), w1)
      else if (attempt <? retryAttempts cfg - 1)%Z
           then retryLoop cfg operation remaining (attempt + 1)%Z error
                  (mkWorld (S (calls w))
                     (slept w ++ [(retryDelay cfg * (attempt + 1))%Z])
                     (reported w))
           else retryLoop cfg operation remaining (attempt + 1)%Z error w1
  | Killed => (Killed, w1)
  end.
Proof.
  cbn [retryLoop]. unfold bind at 1. unfold try_catch, bind at 1, withTimeout.
  destruct (race (operation (calls w)) (timeoutMs cfg) "retryableOperation")
    as [v|e|]; simpl; try reflexivity.
  destruct (shouldRetry cfg e); simpl; try reflexivity.
  destruct (attempt <? retryAttempts cfg - 1)%Z; reflexivity.
Qed.

(** The delays of the loop from attempt [k] on: one per failed attempt
    that is followed by another, each [retryDelay * (attempt + 1)]. *)
Lemma retryLoop_delays {T} cfg (operation : Operation T) remaining :
  forall (k : nat) lastError w,
  exists n,
    slept (snd (retryLoop cfg operation remaining (Z.of_nat k) lastError w)) =
      slept w ++ map (linear_delay cfg) (seq k n) /\
    (Z.of_nat k + Z.of_nat n <= Z.max (Z.of_nat k) (retryAttempts cfg - 1))%Z.
Proof.
  induction remaining as [|remaining IH]; intros k lastError w.
  - exists 0%nat. simpl. rewrite app_nil_r. split; [reflexivity|lia].
  - rewrite retryLoop_turn. cbv zeta.
    destruct (race (operation (calls w)) (timeoutMs cfg) "retryableOperation")
      as [v|e|].
    + exists 0%nat. simpl. rewrite app_nil_r. split; [reflexivity|lia].
    + destruct (shouldRetry cfg e); simpl.
      * destruct (Z.ltb_spec (Z.of_nat k) (retryAttempts cfg - 1)) as [Hlt|Hge].
        -- replace (Z.of_nat k + 1)%Z with (Z.of_nat (S k)) by lia.
           destruct (IH (S k) e
                       (mkWorld (S (calls w))
                          (slept w ++ [(retryDelay cfg * Z.of_nat (S k))%Z])
                          (reported w))) as [n [Hs Hb]].
           exists (S n). split; [|lia].
           rewrite Hs. simpl. rewrite <- app_assoc. simpl.
           unfold linear_delay at 2.
           replace (Z.of_nat k + 1)%Z with (Z.of_nat (S k)) by lia.
           reflexivity.
        -- replace (Z.of_nat k + 1)%Z with (Z.of_nat (S k)) by lia.
           destruct (IH (S k) e (mkWorld (S (calls w)) (slept w) (reported w)))
             as [n [Hs Hb]].
           assert (n = 0%nat) by lia. subst n.
           exists 0%nat. split; [exact Hs|lia].
      * exists 0%nat. simpl. rewrite app_nil_r. split; [reflexivity|lia].
    + exists 0%nat. simpl. rewrite app_nil_r. split; [reflexivity|lia].
Qed.

(** When every attempt fails with an error worth retrying, every attempt
    but the last is followed by a delay. *)
Lemma retryLoop_all_fail {T} cfg (operation : Operation T) remaining :
  forall (k : nat) lastError w,
  (Z.of_nat k + Z.of_nat remaining = retryAttempts cfg)%Z ->
  (forall i, (i < remaining)%nat ->
     exists e,
       race (operation (calls w + i)%nat) (timeoutMs cfg) "retryableOperation"
         = Rejected e /\ shouldRetry cfg e = true) ->
  slept (snd (retryLoop cfg operation remaining (Z.of_nat k) lastError w)) =
    slept w ++ map (linear_delay cfg) (seq k (remaining - 1)).
Proof.
  induction remaining as [|remaining IH]; intros k lastError w Hinv Hfail.
  - simpl. rewrite app_nil_r. reflexivity.
  - rewrite retryLoop_turn. cbv zeta.
    destruct (Hfail 0%nat) as [e [Hr Hs]]; [lia|].
    rewrite Nat.add_0_r in Hr. rewrite Hr, Hs. simpl negb. cbv iota.
    replace (Z.of_nat k + 1)%Z with (Z.of_nat (S k)) by lia.
    destruct (Z.ltb_spec (Z.of_nat k) (retryAttempts cfg - 1)) as [Hlt|Hge].
    + rewrite IH.
      * simpl slept. destruct remaining as [|remaining]; [lia|].
        simpl. rewrite Nat.sub_0_r, <- app_assoc. simpl.
        unfold linear_delay at 2.
        replace (Z.of_nat k + 1)%Z with (Z.of_nat (S k)) by lia.
        reflexivity.
      * lia.
      * intros i Hi. simpl calls.
        destruct (Hfail (S i)) as [e' He']; [lia|].
        exists e'. replace (S (calls w) + i)%nat with (calls w + S i)%nat by lia.
        exact He'.
    + assert (remaining = 0%nat) by lia. subst remaining.
      simpl. rewrite app_nil_r. reflexivity.
Qed.

Lemma withRetry_slept {T} (operation : Operation T) config w :
  slept (snd (withRetry operation config w)) =
  slept (snd (retryLoop (finalConfig config) operation
                (Z.to_nat (retryAttempts (finalConfig config))) 0%Z Undefined w)).
Proof.
  unfold withRetry. cbv zeta. unfold bind at 1.
  destruct (retryLoop _ _ _ _ _ w) as [[[v|e]|e|] w1]; reflexivity.
Qed.

Lemma skipn_length_app {A} (l x : list A) : skipn (List.length l) (l ++ x) = x.
Proof. induction l as [|a l IH]; simpl; auto. Qed.

Lemma linear_delays_increase cfg n : forall k,
  (0 < retryDelay cfg)%Z ->
  StronglySorted Z.lt (map (linear_delay cfg) (seq k n)).
Proof.
  induction n as [|n IH]; intros k Hpos; simpl.
  - constructor.
  - constructor; [apply IH; exact Hpos|].
    apply Forall_forall. intros y Hy.
    apply in_map_iff in Hy. destruct Hy as [j [Hj Hin]].
    apply in_seq in Hin. subst y. unfold linear_delay. nia.
Qed.

Lemma keeps_failing_spec {T} cfg (operation : Operation T) first :
  keeps_failing cfg operation first = true ->
  forall i, (i < Z.to_nat (retryAttempts cfg))%nat ->
    exists e,
      race (operation (first + i)%nat) (timeoutMs cfg) "retryableOperation"
        = Rejected e /\ shouldRetry cfg e = true.
Proof.
  unfold keeps_failing. intros H i Hi.
  rewrite forallb_forall in H.
  specialize (H (first + i)%nat).
  destruct (race (operation (first + i)%nat) (timeoutMs cfg) "retryableOperation")
    as [v|e|] eqn:E.
  - assert (false = true); [|discriminate]. apply H. apply in_seq. lia.
  - exists e. split; [reflexivity|]. apply H. apply in_seq. lia.
  - assert (false = true); [|discriminate]. apply H. apply in_seq. lia.
Qed.

(** C9, as the code has it. The delays [withRetry] waits between attempts
    are [retryDelay * 1], [retryDelay * 2], [retryDelay * 3], ...: the
    delay after failed attempt k (counted from 0) is
    [retryDelay * (k + 1)]. There are at most [retryAttempts - 1] of
    them, exactly that many when every attempt fails with an error worth
    retrying, and they strictly increase when [retryDelay] is positive.
    The growth is linear; nothing caps it and nothing random enters. *)
Theorem withRetry_delays_linear {T} (operation : Operation T)
    (config : PartialConfig) (w : World) :
  let cfg := finalConfig config in
  let delays := new_delays w (snd (withRetry operation config w)) in
  exists n,
    delays = map (linear_delay cfg) (seq 0 n) /\
    (Z.of_nat n <= Z.max 0 (retryAttempts cfg - 1))%Z /\
    (keeps_failing cfg operation (calls w) = true ->
     n = Z.to_nat (retryAttempts cfg - 1)) /\
    ((0 < retryDelay cfg)%Z -> StronglySorted Z.lt delays).
Proof.
  cbv zeta. unfold new_delays. rewrite withRetry_slept.
  set (cfg := finalConfig config).
  destruct (retryLoop_delays cfg operation (Z.to_nat (retryAttempts cfg))
              0%nat Undefined w) as [n [Hs Hb]].
  change (Z.of_nat 0) with 0%Z in Hs, Hb.
  exists n. rewrite Hs, skipn_length_app.
  split; [reflexivity|]. split; [lia|]. split.
  - intros Hk.
    pose proof (keeps_failing_spec cfg operation (calls w) Hk) as Hf.
    destruct (Z.le_gt_cases (retryAttempts cfg) 0) as [Hle|Hgt].
    + lia.
    + pose proof (retryLoop_all_fail cfg operation
                    (Z.to_nat (retryAttempts cfg)) 0%nat Undefined w) as Ha.
      change (Z.of_nat 0) with 0%Z in Ha.
      rewrite Ha in Hs by (try exact Hf; lia).
      apply app_inv_head in Hs.
      apply (f_equal (@List.length Z)) in Hs.
      rewrite !length_map, !length_seq in Hs. lia.
  - intros Hpos. apply linear_delays_increase. exact Hpos.
Qed.

Lemma withRetry_delays_linear_witness :
  keeps_failing (finalConfig six_attempts) always_throws (calls fresh) = true /\
  (0 < retryDelay (finalConfig six_attempts))%Z /\
  exists n,
    new_delays fresh (snd (withRetry always_throws six_attempts fresh)) =
      map (linear_delay (finalConfig six_attempts)) (seq 0 n) /\
    n = 5%nat /\
    StronglySorted Z.lt
      (new_delays fresh (snd (withRetry always_throws six_attempts fresh))).
Proof.
  split; [reflexivity|]. split; [reflexivity|].
  destruct (withRetry_delays_linear always_throws six_attempts fresh)
    as [n [Hd [_ [Hn Hs]]]].
  exists n. split; [exact Hd|]. split.
  - rewrite Hn; reflexivity.
  - apply Hs. reflexivity.
Defined.

(** C9, as stated, fails: with six attempts and the default base delay
    the five delays are 1000, 2000, 3000, 4000 and 5000 ms, where base
    times 2 to the attempt gives 1000, 2000, 4000, 8000 and 16000 ms. *)
Lemma withRetry_delays_not_exponential :
  let w := snd (withRetry always_throws six_attempts fresh) in
  fst (withRetry always_throws six_attempts fresh) =
    Rejected (OtherError "network") /\
  new_delays fresh w = [1000; 2000; 3000; 4000; 5000]%Z /\
  map (exponential_delay (retryDelay (finalConfig six_attempts))) (seq 0 5) =
    [1000; 2000; 4000; 8000; 16000]%Z /\
  new_delays fresh w <>
    map (exponential_delay (retryDelay (finalConfig six_attempts))) (seq 0 5).
Proof.
  cbv zeta. split; [reflexivity|]. split; [reflexivity|].
  split; [reflexivity|]. vm_compute. discriminate.
Qed.

(** *** Attempts, outcome and the error callback *)

Lemma race_settles {T} (r : Run T) ms ty : race r ms ty <> Killed.
Proof.
  destruct r; simpl; try destruct (_ <? _)%Z; discriminate.
Qed.

(** The loop leaves the record of the callback alone and always hands a
    result or a last error to what follows. *)
Lemma retryLoop_resolves {T} cfg (operation : Operation T) remaining :
  forall attempt lastError w,
  (exists r, fst (retryLoop cfg operation remaining attempt lastError w)
             = Resolved r) /\
  reported (snd (retryLoop cfg operation remaining attempt lastError w))
    = reported w.
Proof.
  induction remaining as [|remaining IH]; intros attempt lastError w.
  - simpl. eauto.
  - rewrite retryLoop_turn. cbv zeta.
    pose proof (race_settles (operation (calls w)) (timeoutMs cfg)
                  "retryableOperation") as Hk.
    destruct (race (operation (calls w)) (timeoutMs cfg) "retryableOperation")
      as [v|e|]; [simpl; eauto| |contradiction].
    destruct (shouldRetry cfg e); simpl; [|eauto].
    destruct (attempt <? retryAttempts cfg - 1)%Z;
      match goal with
      | |- context [retryLoop cfg operation remaining ?a ?e' ?w'] =>
          destruct (IH a e' w') as [X Y];
          split; [exact X|rewrite Y; reflexivity]
      end.
Qed.

(** [withRetry] after its loop. *)
Lemma withRetry_eq {T} (operation : Operation T) config w :
  withRetry operation config w =
  match retryLoop (finalConfig config) operation
          (Z.to_nat (retryAttempts (finalConfig config))) 0%Z Undefined w with
  | (Resolved (inl v), w1) => (Resolved v, w1)
  | (Resolved (inr e), w1) =>
      (Rejected e,
       mkWorld (calls w1) (slept w1)
         (onError (finalConfig config) e (reported w1)))
  | (Rejected e, w1) => (Rejected e, w1)
  | (Killed, w1) => (Killed, w1)
  end.
Proof.
  unfold withRetry. cbv zeta. unfold bind at 1.
  destruct (retryLoop _ _ _ _ _ w) as [[[v|e]|e|] w1]; reflexivity.
Qed.

(** The invocations of the loop, counted with the delays: every retry is
    preceded by exactly one delay. *)
Lemma retryLoop_calls {T} cfg (operation : Operation T) remaining :
  forall (k : nat) lastError w,
  (Z.of_nat k + Z.of_nat remaining = retryAttempts cfg)%Z ->
  exists n,
    calls (snd (retryLoop cfg operation remaining (Z.of_nat k) lastError w)) =
      (calls w + n)%nat /\
    (n <= remaining)%nat /\
    (remaining = 0%nat -> n = 0%nat) /\
    ((0 < remaining)%nat ->
     (1 <= n)%nat /\
     (List.length
        (slept (snd (retryLoop cfg operation remaining (Z.of_nat k)
                       lastError w))) + 1 =
      List.length (slept w) + n)%nat).
Proof.
  induction remaining as [|remaining IH]; intros k lastError w Hinv.
  - exists 0%nat. simpl. repeat split; try lia.
  - rewrite retryLoop_turn. cbv zeta.
    destruct (race (operation (calls w)) (timeoutMs cfg) "retryableOperation")
      as [v|e|]; try (exists 1%nat; simpl; repeat split; lia).
    destruct (shouldRetry cfg e); simpl;
      [|exists 1%nat; simpl; repeat split; lia].
    replace (Z.of_nat k + 1)%Z with (Z.of_nat (S k)) by lia.
    destruct (Z.ltb_spec (Z.of_nat k) (retryAttempts cfg - 1)) as [Hlt|Hge].
    + destruct (IH (S k) e
                  (mkWorld (S (calls w))
                     (slept w ++ [(retryDelay cfg * Z.of_nat (S k))%Z])
                     (reported w))) as [n [Hc [Hn [_ Hs]]]]; [lia|].
      destruct Hs as [Hn1 Hs]; [lia|].
      exists (S n). cbn [calls slept] in Hc, Hs.
      rewrite length_app in Hs. cbn [List.length] in Hs.
      repeat split; try lia.
    + assert (remaining = 0%nat) by lia. subst remaining.
      exists 1%nat. simpl. repeat split; lia.
Qed.

(** [withRetry] invokes the operation at most [retryAttempts] times, and
    every invocation but the first comes after exactly one delay: with at
    least one attempt allowed the invocations are one more than the
    delays, and with none allowed the operation is never invoked. *)
Theorem withRetry_invocations {T} (operation : Operation T)
    (config : PartialConfig) (w : World) :
  let cfg := finalConfig config in
  let w' := snd (withRetry operation config w) in
  exists n,
    calls w' = (calls w + n)%nat /\
    (n <= Z.to_nat (retryAttempts cfg))%nat /\
    n = (if (0 <? retryAttempts cfg)%Z
         then S (List.length (new_delays w w')) else 0%nat).
Proof.
  cbv zeta. set (cfg := finalConfig config).
  assert (Hcalls : calls (snd (withRetry operation config w)) =
                   calls (snd (retryLoop cfg operation
                                 (Z.to_nat (retryAttempts cfg)) 0%Z Undefined w))).
  { rewrite withRetry_eq. fold cfg.
    destruct (retryLoop _ _ _ _ _ w) as [[[v|e]|e|] w1]; reflexivity. }
  unfold new_delays. rewrite withRetry_slept, Hcalls. fold cfg.
  destruct (retryLoop_delays cfg operation (Z.to_nat (retryAttempts cfg))
              0%nat Undefined w) as [d [Hs _]].
  change (Z.of_nat 0) with 0%Z in Hs.
  destruct (Z.ltb_spec 0 (retryAttempts cfg)) as [Hpos|Hle].
  - destruct (retryLoop_calls cfg operation (Z.to_nat (retryAttempts cfg))
                0%nat Undefined w) as [n [Hc [Hn [_ Hl]]]]; [lia|].
    change (Z.of_nat 0) with 0%Z in Hc, Hl.
    destruct Hl as [Hn1 Hl]; [lia|].
    exists n. split; [exact Hc|]. split; [exact Hn|].
    rewrite Hs in Hl |- *. rewrite skipn_length_app.
    rewrite length_app in Hl. lia.
  - exists 0%nat. replace (Z.to_nat (retryAttempts cfg)) with 0%nat by lia.
    simpl. split; [lia|]. split; [lia|reflexivity].
Qed.

(** An error [shouldRetry] refuses ends the call at once: the operation
    was invoked once, there was no delay, and the call rejects. Under the
    default [shouldRetry] every timeout is such an error. *)
Theorem withRetry_gives_up_at_once {T} (operation : Operation T)
    (config : PartialConfig) (w : World) (e : Error) :
  let cfg := finalConfig config in
  (0 < retryAttempts cfg)%Z ->
  race (operation (calls w)) (timeoutMs cfg) "retryableOperation" = Rejected e ->
  shouldRetry cfg e = false ->
  (exists e', fst (withRetry operation config w) = Rejected e') /\
  calls (snd (withRetry operation config w)) = S (calls w) /\
  slept (snd (withRetry operation config w)) = slept w /\
  (forall ty ms, shouldRetry defaultConfig (OperationTimeoutError ty ms) = false).
Proof.
  cbv zeta. intros Hpos Hr Hs. rewrite withRetry_eq.
  destruct (Z.to_nat (retryAttempts (finalConfig config))) as [|n] eqn:E; [lia|].
  rewrite retryLoop_turn. cbv zeta. rewrite Hr, Hs. simpl.
  repeat split. exists e. reflexivity.
Qed.

Lemma withRetry_gives_up_at_once_witness :
  (0 < retryAttempts (finalConfig no_config))%Z /\
  race (hanging (calls fresh)) (timeoutMs (finalConfig no_config))
    "retryableOperation" =
    Rejected (OperationTimeoutError "retryableOperation" 5000) /\
  calls (snd (withRetry hanging no_config fresh)) = 1%nat /\
  slept (snd (withRetry hanging no_config fresh)) = [].
Proof.
  split; [simpl; lia|]. split; [reflexivity|].
  destruct (withRetry_gives_up_at_once hanging no_config fresh
              (OperationTimeoutError "retryableOperation" 5000))
    as [_ [C [S _]]]; try reflexivity.
  auto.
Defined.

(** The loop when the first [j] attempts fail with errors worth retrying
    and the next one resolves. *)
Lemma retryLoop_success_at {T} cfg (operation : Operation T) (v : T) j :
  forall remaining (k : nat) lastError w,
  (j < remaining)%nat ->
  (Z.of_nat k + Z.of_nat remaining = retryAttempts cfg)%Z ->
  (forall i, (i < j)%nat ->
     exists e,
       race (operation (calls w + i)%nat) (timeoutMs cfg) "retryableOperation"
         = Rejected e /\ shouldRetry cfg e = true) ->
  race (operation (calls w + j)%nat) (timeoutMs cfg) "retryableOperation"
    = Resolved v ->
  fst (retryLoop cfg operation remaining (Z.of_nat k) lastError w)
    = Resolved (inl v) /\
  calls (snd (retryLoop cfg operation remaining (Z.of_nat k) lastError w))
    = (calls w + S j)%nat /\
  slept (snd (retryLoop cfg operation remaining (Z.of_nat k) lastError w))
    = slept w ++ map (linear_delay cfg) (seq k j).
Proof.
  induction j as [|j IH]; intros remaining k lastError w Hj Hinv Hfail Hok;
    (destruct remaining as [|remaining]; [lia|]);
    rewrite retryLoop_turn; cbv zeta.
  - rewrite Nat.add_0_r in Hok. rewrite Hok. simpl.
    rewrite app_nil_r. repeat split. lia.
  - destruct (Hfail 0%nat) as [e [Hr Hs]]; [lia|].
    rewrite Nat.add_0_r in Hr. rewrite Hr, Hs. simpl negb. cbv iota.
    replace (Z.of_nat k + 1)%Z with (Z.of_nat (S k)) by lia.
    destruct (Z.ltb_spec (Z.of_nat k) (retryAttempts cfg - 1)) as [Hlt|Hge];
      [|lia].
    destruct (IH remaining (S k) e
                (mkWorld (S (calls w))
                   (slept w ++ [(retryDelay cfg * Z.of_nat (S k))%Z])
                   (reported w))) as [R [C S']].
    + lia.
    + lia.
    + intros i Hi. simpl calls.
      destruct (Hfail (S i)) as [e' He']; [lia|].
      exists e'. replace (S (calls w) + i)%nat with (calls w + S i)%nat by lia.
      exact He'.
    + simpl calls.
      replace (S (calls w) + j)%nat with (calls w + S j)%nat by lia. exact Hok.
    + split; [exact R|]. split; [rewrite C; simpl; lia|].
      rewrite S'. simpl slept. rewrite <- app_assoc. simpl.
      unfold linear_delay at 2.
      replace (Z.of_nat k + 1)%Z with (Z.of_nat (S k)) by lia. reflexivity.
Qed.

(** [withRetry] returns the first success: when the first [j] attempts
    fail with errors worth retrying and attempt [j] (from 0, within the
    attempts allowed) resolves in time, the call resolves with that
    value after [j + 1] invocations and the [j] delays
    [retryDelay * 1 .. retryDelay * j], and [onError] is not run. *)
Theorem withRetry_returns_first_success {T} (operation : Operation T)
    (config : PartialConfig) (w : World) (j : nat) (v : T) :
  let cfg := finalConfig config in
  (j < Z.to_nat (retryAttempts cfg))%nat ->
  (forall i, (i < j)%nat ->
     exists e,
       race (operation (calls w + i)%nat) (timeoutMs cfg) "retryableOperation"
         = Rejected e /\ shouldRetry cfg e = true) ->
  race (operation (calls w + j)%nat) (timeoutMs cfg) "retryableOperation"
    = Resolved v ->
  fst (withRetry operation config w) = Resolved v /\
  calls (snd (withRetry operation config w)) = (calls w + S j)%nat /\
  new_delays w (snd (withRetry operation config w)) =
    map (linear_delay cfg) (seq 0 j) /\
  reported (snd (withRetry operation config w)) = reported w.
Proof.
  cbv zeta. intros Hj Hfail Hok.
  set (cfg := finalConfig config) in *.
  destruct (retryLoop_success_at cfg operation v j
              (Z.to_nat (retryAttempts cfg)) 0%nat Undefined w Hj)
    as [R [C S']]; try assumption; [lia|].
  destruct (retryLoop_resolves cfg operation (Z.to_nat (retryAttempts cfg))
              0%Z Undefined w) as [_ P].
  change (Z.of_nat 0) with 0%Z in R, C, S'.
  unfold new_delays. rewrite withRetry_eq. fold cfg.
  destruct (retryLoop cfg operation (Z.to_nat (retryAttempts cfg)) 0%Z
              Undefined w) as [o w1].
  simpl in R, C, S', P. subst o. simpl.
  repeat split; auto. rewrite S'. apply skipn_length_app.
Qed.

Lemma withRetry_returns_first_success_witness :
  (2 < Z.to_nat (retryAttempts (finalConfig no_config)))%nat /\
  fst (withRetry flaky no_config fresh) = Resolved 42%nat /\
  calls (snd (withRetry flaky no_config fresh)) = 3%nat /\
  new_delays fresh (snd (withRetry flaky no_config fresh)) = [1000; 2000]%Z /\
  reported (snd (withRetry flaky no_config fresh)) = [].
Proof.
  split; [simpl; lia|].
  apply (withRetry_returns_first_success flaky no_config fresh 2 42%nat).
  - simpl. lia.
  - intros i Hi. exists (OtherError "network").
    destruct i as [|[|i]]; [split; reflexivity|split; reflexivity|lia].
  - reflexivity.
Defined.

End ErrorHandlingFacts.

Module EncryptionFacts.

Import Encryption.

Lemma decryptMessage_throws lib c priv s :
  decryptMessage lib c priv s = (Rejected (ReferenceError "decrypted"), s).
Proof. reflexivity. Qed.

Lemma encryptMessage_throws lib P pub s :
  exists e, fst (encryptMessage lib P pub s) = Rejected e.
Proof.
  unfold encryptMessage, bind, ec_genKeyPair, ec_keyFromPublic,
    ethers_randomBytes.
  destruct (genKeyPair lib s) as [kp s1].
  destruct (keyFromPublic lib pub) as [pt|]; simpl.
  - destruct (randomBytes lib 16 s1) as [iv s2]. simpl. eauto.
  - eauto.
Qed.

(** C7. What the code does on every plaintext and every key pair:
    [encryptMessage] rejects, with the [ReferenceError] of the undeclared
    [encrypted] once the key was taken, [decryptMessage] rejects with the
    [ReferenceError] of the undeclared [decrypted], and so decrypting an
    encryption never returns the plaintext. *)
Theorem roundtrip_never_returns (lib : Library) (P pub priv : string)
    (s : Entropy lib) :
  fst (encryptMessage lib P pub s) =
    match keyFromPublic lib pub with
    | Some _ => Rejected (ReferenceError "encrypted")
    | None => Rejected InvalidKeyError
    end /\
  (forall c s', fst (decryptMessage lib c priv s') =
                Rejected (ReferenceError "decrypted")) /\
  fst (roundtrip lib P pub priv s) <> Resolved P.
Proof.
  split; [|split].
  - unfold encryptMessage, bind, ec_genKeyPair, ec_keyFromPublic,
      ethers_randomBytes.
    destruct (genKeyPair lib s) as [kp s1].
    destruct (keyFromPublic lib pub) as [pt|]; [|reflexivity].
    simpl. destruct (randomBytes lib 16 s1) as [iv s2]. reflexivity.
  - reflexivity.
  - unfold roundtrip, bind.
    destruct (encryptMessage_throws lib P pub s) as [e He].
    destruct (encryptMessage lib P pub s) as [[c|e'|] s1]; simpl in *;
      discriminate.
Qed.

End EncryptionFacts.

Module MessagingContractFacts.

Import MessagingContract.

Lemma sendMessage_messages a t b content s x y :
  messages (sendMessage a t b content s) x y =
  messages s x y
  ++ (if (x =? a)%N && (y =? b)%N then [mkMessage a content t false] else [])
  ++ (if (x =? b)%N && (y =? a)%N then [mkMessage a content t false] else []).
Proof.
  unfold sendMessage, emit, push. simpl.
  destruct ((x =? a)%N && (y =? b)%N); destruct ((x =? b)%N && (y =? a)%N);
    simpl; rewrite <- ?app_assoc, ?app_nil_r; reflexivity.
Qed.

(** A message sent to someone else lands at the end of both mailboxes of
    the pair, so both parties read it with [getMessages]; every other
    mailbox is as before and one [MessageSent] event is emitted. *)
Theorem sendMessage_reaches_both (a b : address) (t : N) (content : string)
    (s : State) :
  a <> b ->
  let s' := sendMessage a t b content s in
  let m := mkMessage a content t false in
  getMessages a b s' = getMessages a b s ++ [m] /\
  getMessages b a s' = getMessages b a s ++ [m] /\
  (forall x y, (x, y) <> (a, b) -> (x, y) <> (b, a) ->
               getMessages x y s' = getMessages x y s) /\
  events s' = events s ++ [mkMessageSent a b t].
Proof.
  intros Hab. cbv zeta. unfold getMessages.
  assert (Eab : (a =? b)%N = false) by (apply N.eqb_neq; exact Hab).
  assert (Eba : (b =? a)%N = false)
    by (apply N.eqb_neq; intros E; apply Hab; symmetry; exact E).
  repeat split.
  - rewrite sendMessage_messages, !N.eqb_refl, Eab. simpl.
    rewrite ?app_nil_r. reflexivity.
  - rewrite sendMessage_messages, !N.eqb_refl, Eba. simpl.
    rewrite ?app_nil_r. reflexivity.
  - intros x y H1 H2. rewrite sendMessage_messages.
    assert (E1 : (x =? a)%N && (y =? b)%N = false).
    { destruct (N.eqb_spec x a); [|reflexivity].
      destruct (N.eqb_spec y b); [|reflexivity].
      exfalso. apply H1. subst. reflexivity. }
    assert (E2 : (x =? b)%N && (y =? a)%N = false).
    { destruct (N.eqb_spec x b); [|reflexivity].
      destruct (N.eqb_spec y a); [|reflexivity].
      exfalso. apply H2. subst. reflexivity. }
    rewrite E1, E2. simpl. rewrite app_nil_r. reflexivity.
Qed.

Lemma sendMessage_reaches_both_witness :
  let s' := sendMessage 1%N 1700%N 2%N "ciphertext" deployed in
  1%N <> 2%N /\
  getMessages 1%N 2%N s' = [mkMessage 1%N "ciphertext" 1700%N false] /\
  getMessages 2%N 1%N s' = [mkMessage 1%N "ciphertext" 1700%N false].
Proof.
  cbv zeta. split; [discriminate|].
  destruct (sendMessage_reaches_both 1%N 2%N 1700%N "ciphertext" deployed)
    as [H1 [H2 _]]; [discriminate|].
  split; [exact H1|exact H2].
Defined.

(** A message sent to oneself is pushed twice onto the same mailbox:
    [getMessages] returns it two times. *)
Theorem sendMessage_to_self_stores_twice (a : address) (t : N)
    (content : string) (s : State) :
  getMessages a a (sendMessage a t a content s) =
    getMessages a a s
    ++ [mkMessage a content t false; mkMessage a content t false].
Proof.
  unfold getMessages. rewrite sendMessage_messages, !N.eqb_refl. reflexivity.
Qed.

Lemma execute_messages s c x y :
  exists l, messages (execute s c) x y = messages s x y ++ l.
Proof.
  destruct c as [a t b content|a data]; cbn [execute].
  - rewrite sendMessage_messages. eauto.
  - exists []. rewrite app_nil_r. reflexivity.
Qed.

(** The contract only appends: after any further transactions every
    mailbox still begins with what it held before. No message is ever
    removed, reordered or changed. *)
Theorem mailboxes_are_append_only (history : list Call) (s : State)
    (x y : address) :
  exists l,
    getMessages x y (run history s) = getMessages x y s ++ l.
Proof.
  unfold getMessages, run. revert s.
  induction history as [|c history IH]; intros s; simpl.
  - exists []. rewrite app_nil_r. reflexivity.
  - destruct (IH (execute s c)) as [l Hl].
    destruct (execute_messages s c x y) as [l0 H0].
    exists (l0 ++ l). rewrite Hl, H0, app_assoc. reflexivity.
Qed.

(** What holds of every state a history leads to from one where it
    holds. *)
Lemma run_invariant (Inv : State -> Prop) :
  (forall s c, Inv s -> Inv (execute s c)) ->
  forall history s, Inv s -> Inv (run history s).
Proof.
  intros Hstep. unfold run.
  induction history as [|c history IH]; intros s Hs; simpl; auto.
Qed.

(** Both parties of a conversation see the same history: in every state
    reached from deployment, the mailbox of [a] with [b] equals the
    mailbox of [b] with [a], for two different addresses. *)
Theorem conversation_is_shared (history : list Call) (a b : address) :
  a <> b ->
  getMessages a b (run history deployed) =
  getMessages b a (run history deployed).
Proof.
  intros Hab. unfold getMessages.
  apply (run_invariant
           (fun s => forall x y, x <> y -> messages s x y = messages s y x));
    [| |exact Hab].
  - intros s c Hs x y Hxy. destruct c as [p t q content|p data];
      cbn [execute].
    + rewrite !sendMessage_messages, (Hs x y Hxy).
      destruct (N.eqb_spec x p); destruct (N.eqb_spec y q);
        destruct (N.eqb_spec x q); destruct (N.eqb_spec y p);
        subst; simpl; rewrite ?app_nil_r; try reflexivity; congruence.
    + apply Hs. exact Hxy.
  - intros x y _. reflexivity.
Qed.

Lemma conversation_is_shared_witness :
  let history := [SendMessage 1%N 1700%N 2%N "hello";
                  SendMessage 2%N 1701%N 1%N "hi";
                  SendMessage 3%N 1702%N 1%N "other"] in
  1%N <> 2%N /\
  getMessages 2%N 1%N (run history deployed) =
    [mkMessage 1%N "hello" 1700%N false; mkMessage 2%N "hi" 1701%N false] /\
  getMessages 1%N 2%N (run history deployed) =
    getMessages 2%N 1%N (run history deployed).
Proof.
  cbv zeta. split; [discriminate|]. split; [reflexivity|].
  apply (conversation_is_shared
           [SendMessage 1%N 1700%N 2%N "hello";
            SendMessage 2%N 1701%N 1%N "hi";
            SendMessage 3%N 1702%N 1%N "other"] 1%N 2%N).
  discriminate.
Defined.

(** In every state reached from deployment, a mailbox of [x] with [y]
    holds only messages sent by [x] or by [y], none of them is marked
    read (no function of the contract sets the mark), and the contract
    has emitted one event for each [sendMessage] of the history. *)
Theorem mailbox_contents (history : list Call) :
  let s := run history deployed in
  (forall x y m, In m (getMessages x y s) ->
                 (sender m = x \/ sender m = y) /\ isRead m = false) /\
  List.length (events s) = List.length (filter is_send history).
Proof.
  cbv zeta. unfold getMessages.
  assert (H : forall history s,
    (forall x y m, In m (messages s x y) ->
                   (sender m = x \/ sender m = y) /\ isRead m = false) ->
    (forall x y m, In m (messages (run history s) x y) ->
                   (sender m = x \/ sender m = y) /\ isRead m = false) /\
    List.length (events (run history s)) =
      (List.length (events s) + List.length (filter is_send history))%nat).
  { clear. unfold run.
    induction history as [|c history IH]; intros s Hs; simpl.
    - split; [exact Hs|lia].
    - destruct (IH (execute s c)) as [H1 H2].
      + intros x y m Hin. destruct c as [p t q content|p data];
          cbn [execute] in Hin.
        * rewrite sendMessage_messages in Hin.
          apply in_app_or in Hin. destruct Hin as [Hin|Hin]; [eauto|].
          apply in_app_or in Hin.
          destruct Hin as [Hin|Hin];
            [destruct (N.eqb_spec x p); destruct (N.eqb_spec y q)
            |destruct (N.eqb_spec x q); destruct (N.eqb_spec y p)];
            simpl in Hin; try contradiction;
            destruct Hin as [Hin|[]]; subst; simpl; auto.
        * eauto.
      + split; [exact H1|]. rewrite H2.
        destruct c as [p t q content|p data]; simpl.
        * rewrite length_app. simpl. lia.
        * lia. }
  destruct (H history deployed) as [H1 H2].
  - intros x y m []. 
  - split; [exact H1|exact H2].
Qed.

End MessagingContractFacts.

Module OfflineStorageJsonFacts.

Import OfflineStorageJson.

(** What [getPendingMessages] does, by the fate of its one read and the
    text it finds. *)
Lemma getPendingMessages_by_text w :
  getPendingMessages w =
  let w' := mkWorld (stored w) (snd (next_fate (disk_script w))) in
  match fst (next_fate (disk_script w)) with
  | Fine =>
      (Resolved match stored w with
                | JsonText v => v
                | _ => JArray []
                end, w')
  | Fails => (Resolved (JArray []), w')
  | Dies => (Killed, w')
  end.
Proof.
  unfold getPendingMessages, getItem_PENDING_MESSAGES_KEY, try_catch, bind.
  destruct (next_fate (disk_script w)) as [f rest]. simpl.
  destruct f; simpl; try reflexivity.
  destruct (stored w); reflexivity.
Qed.

(** C10, as the code has it. [getPendingMessages] never rejects, whatever
    text the storage holds and whatever its read does; unless the
    process dies at the read it resolves. It resolves with the empty
    list when the read fails and when the key is absent, empty or not
    JSON; otherwise it resolves with the value [JSON.parse] gives,
    unchanged: a list exactly when the stored text is a JSON array. *)
Theorem getPendingMessages_never_rejects (w : World) :
  (forall e, fst (getPendingMessages w) <> Rejected e) /\
  (fst (next_fate (disk_script w)) <> Dies ->
   exists v, fst (getPendingMessages w) = Resolved v /\
     (fst (next_fate (disk_script w)) = Fails -> v = JArray []) /\
     (stored w = NoItem -> v = JArray []) /\
     (stored w = EmptyText -> v = JArray []) /\
     (stored w = NotJson -> v = JArray []) /\
     (fst (next_fate (disk_script w)) = Fine ->
      forall j, stored w = JsonText j -> v = j)).
Proof.
  rewrite getPendingMessages_by_text. cbv zeta.
  destruct (fst (next_fate (disk_script w))) eqn:F; simpl.
  - split; [discriminate|]. intros _.
    exists (match stored w with JsonText v => v | _ => JArray [] end).
    split; [reflexivity|]. split; [discriminate|].
    repeat split; intros; subst;
      try match goal with H : stored w = _ |- _ => rewrite H end;
      reflexivity.
  - split; [discriminate|]. intros _. exists (JArray []).
    repeat split; auto; discriminate.
  - split; [discriminate|]. intros H. exfalso. apply H. reflexivity.
Qed.

Lemma getPendingMessages_never_rejects_witness :
  let w := mkWorld (JsonText (JArray [message_json
                      (OfflineStorage.a_message "1" 100)])) [Fails] in
  fst (next_fate (disk_script w)) <> Dies /\
  exists v, fst (getPendingMessages w) = Resolved v /\ v = JArray [].
Proof.
  cbv zeta. split; [simpl; discriminate|].
  destruct (getPendingMessages_never_rejects
              (mkWorld (JsonText (JArray [message_json
                          (OfflineStorage.a_message "1" 100)])) [Fails]))
    as [_ H].
  destruct H as [v [Hv [Hf _]]]; [simpl; discriminate|].
  exists v. split; [exact Hv|]. apply Hf. reflexivity.
Defined.

(** C10, as stated, fails: when the text under the key is [null] (valid
    JSON, not an array) and the read succeeds, [getPendingMessages]
    resolves with [null], which is not a list; the same with an object
    or a number. *)
Lemma getPendingMessages_returns_what_is_stored :
  fst (getPendingMessages (mkWorld (JsonText JNull) [])) = Resolved JNull /\
  is_array JNull = false /\
  fst (getPendingMessages (mkWorld (JsonText (JObject [])) []))
    = Resolved (JObject []) /\
  fst (getPendingMessages (mkWorld (JsonText (JNumber 7 1)) []))
    = Resolved (JNumber 7 1).
Proof. repeat split. Qed.

(** On the values the class itself writes the two models of the read
    agree: over the text of an [OfflineStorage] world the read gives the
    array of the messages the typed read gives, and is killed when that
    one is. *)
Lemma getPendingMessages_agrees (w : OfflineStorage.World) :
  fst (getPendingMessages (raw w)) =
  match fst (OfflineStorage.getPendingMessages w) with
  | Resolved l => Resolved (JArray (map message_json l))
  | Rejected e => Rejected e
  | Killed => Killed
  end.
Proof.
  rewrite getPendingMessages_by_text, OfflineStorageFacts.getPendingMessages_eq.
  cbv zeta. unfold raw, OfflineStorage.durable_pending. simpl.
  destruct (fst (next_fate (OfflineStorage.disk_script w))); simpl;
    try reflexivity.
  destruct (OfflineStorage.pendingMessages w); reflexivity.
Qed.

End OfflineStorageJsonFacts.

Module RetryCallbacksFacts.

Import RetryCallbacks.

(** One turn of the loop, by how the attempt settles and by what
    [shouldRetry] does. *)
Lemma retryLoop_step {U T} (cfg : ErrorHandlerConfig U)
    (operation : ErrorHandling.Operation T) remaining attempt lastError w :
  retryLoop cfg operation (S remaining) attempt lastError w =
  match ErrorHandling.race (operation (calls w)) (timeoutMs cfg)
          "retryableOperation" with
  | Resolved v =>
      (Resolved (inl v), mkWorld (S (calls w)) (slept w) (handled w) (user w))
  | Rejected error =>
      match shouldRetry cfg error (user w) with
      | (inl again, u) =>
          if negb again
          then (Resolved (inr error),
                mkWorld (S (calls w)) (slept w) (handled w) u)
          else if (attempt <? retryAttempts cfg - 1)%Z
               then retryLoop cfg operation remaining (attempt + 1)%Z error
                      (mkWorld (S (calls w))
                         (slept w ++ [(retryDelay cfg * (attempt + 1))%Z])
                         (handled w) u)
               else retryLoop cfg operation remaining (attempt + 1)%Z error
                      (mkWorld (S (calls w)) (slept w) (handled w) u)
      | (inr x, u) =>
          (Rejected x, mkWorld (S (calls w)) (slept w) (handled w) u)
      end
  | Killed => (Killed, mkWorld (S (calls w)) (slept w) (handled w) (user w))
  end.
Proof.
  cbn [retryLoop]. unfold bind at 1. unfold try_catch, bind at 1, withTimeout.
  destruct (ErrorHandling.race (operation (calls w)) (timeoutMs cfg)
              "retryableOperation") as [v|e|]; simpl; try reflexivity.
  unfold bind at 1. unfold call. cbn [calls slept handled user].
  destruct (shouldRetry cfg e (user w)) as [[again|x] u]; try reflexivity.
  destruct again; simpl; try reflexivity.
  destruct (attempt <? retryAttempts cfg - 1)%Z; reflexivity.
Qed.

(** The loop never calls [onError]; it is left with a result or a last
    error, or by what [shouldRetry] threw. *)
Lemma retryLoop_leaves_onError {U T} (cfg : ErrorHandlerConfig U)
    (operation : ErrorHandling.Operation T) remaining :
  forall attempt lastError w,
  handled (snd (retryLoop cfg operation remaining attempt lastError w))
    = handled w /\
  match fst (retryLoop cfg operation remaining attempt lastError w) with
  | Resolved _ => True
  | Rejected x => exists e u, fst (shouldRetry cfg e u) = inr x
  | Killed => False
  end.
Proof.
  induction remaining as [|remaining IH]; intros attempt lastError w.
  - simpl. auto.
  - rewrite retryLoop_step.
    pose proof (ErrorHandlingFacts.race_settles (operation (calls w))
                  (timeoutMs cfg) "retryableOperation") as Hk.
    destruct (ErrorHandling.race (operation (calls w)) (timeoutMs cfg)
                "retryableOperation") as [v|e|]; [simpl; auto| |contradiction].
    destruct (shouldRetry cfg e (user w)) as [[again|x] u] eqn:E.
    + destruct again; cbn [negb]; [|simpl; auto].
      destruct (attempt <? retryAttempts cfg - 1)%Z;
        match goal with
        | |- context [retryLoop cfg operation remaining ?a ?e' ?w'] =>
            destruct (IH a e' w') as [X Y];
            split; [rewrite X; reflexivity|exact Y]
        end.
    + simpl. split; [reflexivity|]. exists e, (user w). rewrite E. reflexivity.
Qed.

(** [withRetry] after its loop. *)
Lemma withRetry_after_loop {U T} console_error emit
    (operation : ErrorHandling.Operation T) (config : PartialConfig U) w :
  withRetry console_error emit operation config w =
  match retryLoop (finalConfig console_error emit config) operation
          (Z.to_nat (retryAttempts (finalConfig console_error emit config)))
          0%Z Undefined w with
  | (Resolved (inl v), w1) => (Resolved v, w1)
  | (Resolved (inr e), w1) =>
      match onError (finalConfig console_error emit config) e (user w1) with
      | (inl _, u) =>
          (Rejected e, mkWorld (calls w1) (slept w1) (handled w1 ++ [e]) u)
      | (inr x, u) =>
          (Rejected x, mkWorld (calls w1) (slept w1) (handled w1 ++ [e]) u)
      end
  | (Rejected x, w1) => (Rejected x, w1)
  | (Killed, w1) => (Killed, w1)
  end.
Proof.
  unfold withRetry. cbv zeta. unfold bind at 1.
  destruct (retryLoop _ _ _ _ _ w) as [[[v|e]|x|] w1]; try reflexivity.
  unfold bind, call_onError, call. cbn [calls slept handled user].
  destruct (onError _ e (user w1)) as [[[]|x] u]; reflexivity.
Qed.

(** How often [withRetry] calls [onError], by how it settles. *)
Lemma withRetry_onError_calls {U T} console_error emit
    (operation : ErrorHandling.Operation T) (config : PartialConfig U) w :
  let cfg := finalConfig console_error emit config in
  let r := withRetry console_error emit operation config w in
  match fst r with
  | Resolved _ => handled (snd r) = handled w
  | Rejected x =>
      (handled (snd r) = handled w /\
       exists e u, fst (shouldRetry cfg e u) = inr x) \/
      (exists e,
         handled (snd r) = handled w ++ [e] /\
         (x = e \/ exists u, fst (onError cfg e u) = inr x))
  | Killed => False
  end.
Proof.
  cbv zeta. rewrite withRetry_after_loop.
  destruct (retryLoop_leaves_onError (finalConfig console_error emit config) operation
              (Z.to_nat (retryAttempts (finalConfig console_error emit config)))
              0%Z Undefined w) as [Hh Ho].
  destruct (retryLoop _ _ _ _ _ w) as [[[v|e]|x|] w1];
    cbn [fst snd] in Hh, Ho; [| | |contradiction].
  - simpl. exact Hh.
  - destruct (onError (finalConfig console_error emit config) e (user w1))
      as [[[]|x] u] eqn:E; cbn [fst snd handled]; right; exists e;
      rewrite Hh; (split; [reflexivity|]); [left; reflexivity|].
    right. exists (user w1). rewrite E. reflexivity.
  - simpl. left. auto.
Qed.

(** With callbacks that return, the loop is the loop of
    [ErrorHandling]. *)
Lemma retryLoop_returning {T} (c : ErrorHandling.PartialConfig)
    (operation : ErrorHandling.Operation T) remaining :
  forall attempt lastError w h,
  retryLoop (finalConfig console emit_heard (returning c)) operation
    remaining attempt lastError (with_handled h w) =
  (fst (ErrorHandling.retryLoop (ErrorHandling.finalConfig c) operation
          remaining attempt lastError w),
   with_handled h
     (snd (ErrorHandling.retryLoop (ErrorHandling.finalConfig c) operation
             remaining attempt lastError w))).
Proof.
  assert (Hs : forall e u,
             shouldRetry (finalConfig console emit_heard (returning c)) e u =
             (inl (ErrorHandling.shouldRetry (ErrorHandling.finalConfig c) e),
              u)).
  { intros e u. unfold finalConfig, ErrorHandling.finalConfig, returning.
    cbn. destruct (ErrorHandling.p_shouldRetry c); reflexivity. }
  induction remaining as [|remaining IH]; intros attempt lastError w h.
  - reflexivity.
  - rewrite retryLoop_step, ErrorHandlingFacts.retryLoop_turn. cbv zeta.
    replace (timeoutMs (finalConfig console emit_heard (returning c)))
      with (ErrorHandling.timeoutMs (ErrorHandling.finalConfig c))
      by reflexivity.
    replace (retryAttempts (finalConfig console emit_heard (returning c)))
      with (ErrorHandling.retryAttempts (ErrorHandling.finalConfig c))
      by reflexivity.
    replace (retryDelay (finalConfig console emit_heard (returning c)))
      with (ErrorHandling.retryDelay (ErrorHandling.finalConfig c))
      by reflexivity.
    cbn [with_handled calls slept handled user].
    destruct (ErrorHandling.race (operation (ErrorHandling.calls w))
                (ErrorHandling.timeoutMs (ErrorHandling.finalConfig c))
                "retryableOperation") as [v|e|]; try reflexivity.
    rewrite Hs.
    destruct (ErrorHandling.shouldRetry (ErrorHandling.finalConfig c) e);
      cbn [negb]; [|reflexivity].
    destruct (attempt <? _)%Z;
      match goal with
      | |- context [ErrorHandling.retryLoop _ operation remaining ?a ?e' ?w'] =>
          exact (IH a e' w' h)
      end.
Qed.

(** With callbacks that return, [withRetry] is the [withRetry] of
    [ErrorHandling]: the same outcome, invocations, delays and record of
    the callback, and one call of [onError] exactly when it rejects. *)
Lemma withRetry_returning {T} (c : ErrorHandling.PartialConfig)
    (operation : ErrorHandling.Operation T) w h :
  let r := ErrorHandling.withRetry operation c w in
  withRetry console emit_heard operation (returning c) (with_handled h w) =
  (fst r,
   with_handled
     (match fst r with Rejected e => h ++ [e] | _ => h end) (snd r)).
Proof.
  cbv zeta. rewrite withRetry_after_loop, ErrorHandlingFacts.withRetry_eq.
  replace (retryAttempts (finalConfig console emit_heard (returning c)))
    with (ErrorHandling.retryAttempts (ErrorHandling.finalConfig c))
    by reflexivity.
  rewrite retryLoop_returning.
  destruct (ErrorHandlingFacts.retryLoop_resolves
              (ErrorHandling.finalConfig c) operation
              (Z.to_nat (ErrorHandling.retryAttempts
                           (ErrorHandling.finalConfig c)))
              0%Z Undefined w) as [[r R] _].
  destruct (ErrorHandling.retryLoop _ _ _ _ _ w) as [[[v|e]|x|] w1];
    try discriminate R; try reflexivity.
  cbn [fst snd with_handled user calls slept handled].
  assert (Ho : forall u,
             onError (finalConfig console emit_heard (returning c)) e u =
             (inl tt,
              ErrorHandling.onError (ErrorHandling.finalConfig c) e u)).
  { intros u. unfold finalConfig, ErrorHandling.finalConfig, returning.
    cbn. destruct (ErrorHandling.p_onError c); reflexivity. }
  rewrite Ho. reflexivity.
Qed.



(** A [shouldRetry] that throws: [withRetry] rejects with what it threw
    after one attempt, and [onError] is not called. *)
Lemma withRetry_left_by_shouldRetry :
  let config := mkPartial None None None (Some failing_shouldRetry) None in
  let r := withRetry console emit_heard ErrorHandling.always_throws config
             (mkWorld 0 [] [] []) in
  fst r = Rejected (OtherError "TypeError") /\
  calls (snd r) = 1%nat /\ handled (snd r) = [] /\ user (snd r) = [].
Proof.
  cbv zeta. repeat split; reflexivity.
Qed.

(** X19. [createErrorBoundary] resolves with what [withRetry] resolves
    with. When [withRetry] rejects and the caller gave no [onError], it
    resolves with the fallback, whatever the callbacks do; so without an
    [onError] of the caller it never rejects. When the caller gave an
    [onError], the handler calls it with the error of [withRetry], and
    [createErrorBoundary] resolves with the fallback when that call
    returns and rejects with what it throws. With an [onError] and a
    [shouldRetry] that return, it never rejects, and on the way to the
    fallback the caller's [onError] has run twice on the same error. *)
Theorem createErrorBoundary_settles {U T} console_error emit
    (operation : ErrorHandling.Operation T) (fallback : T)
    (config : PartialConfig U) (w : World U) :
  let cfg := finalConfig console_error emit config in
  let r := withRetry console_error emit operation config w in
  let b := createErrorBoundary console_error emit operation fallback config w in
  match fst r with
  | Resolved v => b = (Resolved v, snd r)
  | Rejected x =>
      match p_onError config with
      | None => b = (Resolved fallback, snd r)
      | Some f =>
          handled (snd b) = handled (snd r) ++ [x] /\
          fst b = match fst (f x (user (snd r))) with
                  | inl _ => Resolved fallback
                  | inr y => Rejected y
                  end
      end
  | Killed => False
  end /\
  (p_onError config = None -> exists v, fst b = Resolved v) /\
  (forall f, p_onError config = Some f ->
   returns f -> returns (shouldRetry cfg) ->
   (exists v, fst b = Resolved v) /\
   (forall x, fst r = Rejected x ->
    fst b = Resolved fallback /\ handled (snd b) = handled w ++ [x; x])).
Proof.
  cbv zeta.
  pose proof (withRetry_onError_calls console_error emit operation config w) as HI.
  cbv zeta in HI.
  assert (H1 :
    match fst (withRetry console_error emit operation config w) with
    | Resolved v =>
        createErrorBoundary console_error emit operation fallback config w =
          (Resolved v, snd (withRetry console_error emit operation config w))
    | Rejected x =>
        match p_onError config with
        | None =>
            createErrorBoundary console_error emit operation fallback config w
            = (Resolved fallback,
               snd (withRetry console_error emit operation config w))
        | Some f =>
            handled (snd (createErrorBoundary console_error emit operation
                            fallback config w)) =
              handled (snd (withRetry console_error emit operation config w))
                ++ [x] /\
            fst (createErrorBoundary console_error emit operation fallback
                   config w) =
              match fst (f x (user (snd (withRetry console_error emit
                                           operation config w)))) with
              | inl _ => Resolved fallback
              | inr y => Rejected y
              end
        end
    | Killed => False
    end).
  { unfold createErrorBoundary, try_catch.
    destruct (withRetry console_error emit operation config w)
      as [[v|x|] w1]; cbn [fst snd] in *; [reflexivity| |exact HI].
    destruct (p_onError config) as [f|]; [|reflexivity].
    unfold bind, call_onError, call. cbn [calls slept handled user].
    destruct (f x (user w1)) as [[[]|y] u]; simpl; auto. }
  split; [exact H1|]. split.
  - intros Hnone. rewrite Hnone in H1.
    destruct (fst (withRetry console_error emit operation config w))
      as [v|x|]; [| |contradiction]; rewrite H1; simpl; eauto.
  - intros f Hf Hretf Hrets. rewrite Hf in H1.
    assert (Hon : onError (finalConfig console_error emit config) = f).
    { unfold finalConfig. cbn [onError]. rewrite Hf. reflexivity. }
    destruct (fst (withRetry console_error emit operation config w))
      as [v|x|]; [| |contradiction].
    + rewrite H1. simpl. split; [eauto|]. intros x Hx. discriminate.
    + destruct H1 as [Hh Hb].
      destruct (Hretf x (user (snd (withRetry console_error emit operation
                                      config w)))) as [a Ha].
      rewrite Ha in Hb.
      split; [eauto|]. intros x' Hx'. injection Hx' as <-.
      split; [exact Hb|]. rewrite Hh.
      destruct HI as [[_ [e [u He]]]|[e [He Hx]]].
      * destruct (Hrets e u) as [b Hb']. congruence.
      * rewrite He. rewrite <- app_assoc.
        destruct Hx as [->|[u Hu]]; [reflexivity|].
        rewrite Hon in Hu. destruct (Hretf e u) as [a' Ha']. congruence.
Qed.

Lemma createErrorBoundary_settles_witness :
  let config := mkPartial None None None None (Some noting) in
  let b := createErrorBoundary console emit_heard ErrorHandling.always_throws
             tt config (mkWorld 0 [] [] []) in
  p_onError config = Some noting /\
  returns noting /\
  returns (shouldRetry (finalConfig console emit_heard config)) /\
  fst b = Resolved tt /\
  handled (snd b) = [] ++ [OtherError "network"; OtherError "network"].
Proof.
  cbv zeta.
  assert (Hn : returns noting).
  { intros e u. eexists. reflexivity. }
  assert (Hs : returns (shouldRetry (finalConfig console emit_heard
                 (mkPartial None None None None (Some noting))))).
  { intros e u. eexists. reflexivity. }
  split; [reflexivity|]. split; [exact Hn|]. split; [exact Hs|].
  exact (proj2 (proj2 (proj2 (createErrorBoundary_settles console emit_heard
                  ErrorHandling.always_throws tt
                  (mkPartial None None None None (Some noting))
                  (mkWorld 0 [] [] []))) noting eq_refl Hn Hs)
           (OtherError "network") eq_refl).
Defined.

(** A caller's [onError] that throws: [createErrorBoundary] rejects with
    what it threw, and the fallback is not returned. *)
Lemma createErrorBoundary_left_by_onError :
  let config := mkPartial None None None None (Some rethrowing) in
  fst (createErrorBoundary console emit_heard ErrorHandling.always_throws
         tt config (mkWorld 0 [] [] []))
    = Rejected (OtherError "network").
Proof.
  reflexivity.
Qed.

End RetryCallbacksFacts.
